(** * EXAM-PLANNER: the exam scheduler of [main.py]

    A shallow embedding of the class [ExamScheduler] (the conflict graph, the
    course set and the greedy slot assignment of [schedule_exams]) and of the
    conflict handler of [ExamPlannerUI], followed by the properties of the
    scheduler that the design document states.

    Python values are modelled as follows.
    - a course name is a [string];
    - [self.courses], a [set], is a [gset string];
    - [self.graph], a [defaultdict(set)], is a [gmap string (gset string)];
      reading [self.graph[c]] for an absent [c] stores an empty set under [c]
      before returning it, which [graph_getitem] writes out;
    - slot indices are Python integers counted up from 1: [nat];
    - [time_slots], a [dict], is a [gmap string nat]; [slot_counts], a
      [defaultdict(int)] local to one call, is a [gmap nat nat] read with
      default 0;
    - the order in which Python enumerates a [set] is not determined by its
      elements, so [schedule_exams] takes that enumeration as an argument;
    - the [while] loop of [schedule_exams] has no bound in the source: it is
      run on a fuel argument and returns [None] when the fuel runs out. *)

From stdpp Require Import gmap strings list fin_maps fin_sets sorting pretty.

Set Warnings "-clear-no-such-hyp".

Open Scope string_scope.
Open Scope nat_scope.

(** ** The scheduler object *)

Record ExamScheduler := mkScheduler {
  graph : gmap string (gset string);
  courses : gset string
}.

(** [ExamScheduler.__init__] *)
Definition init : ExamScheduler := mkScheduler ∅ ∅.

(** [self.graph[c]] on the [defaultdict(set)]: the set stored under [c], an
    absent key being first bound to a new empty set. Returns the mapping after
    the read together with the set read. *)
Definition graph_getitem (g : gmap string (gset string)) (c : string)
  : gmap string (gset string) * gset string :=
  match g !! c with
  | Some ns => (g, ns)
  | None => (<[c := ∅]> g, ∅)
  end.

(** [self.graph[c].add(x)]: read with default, then add in place. *)
Definition graph_add (g : gmap string (gset string)) (c x : string)
  : gmap string (gset string) :=
  let '(g1, ns) := graph_getitem g c in <[c := ns ∪ {[x]}]> g1.

(** The conflict set of [c] as a reader sees it: empty when [c] has no entry. *)
Definition neighbors (g : gmap string (gset string)) (c : string) : gset string :=
  default ∅ (g !! c).

(** [a] lists [b] among its conflicts. *)
Definition conflicts (s : ExamScheduler) (a b : string) : Prop :=
  b ∈ neighbors (graph s) a.

(** [ExamScheduler.add_course] *)
Definition add_course (course : string) (s : ExamScheduler) : ExamScheduler :=
  mkScheduler (graph s) (courses s ∪ {[course]}).

(** [ExamScheduler.remove_course] *)
Definition remove_course (course : string) (s : ExamScheduler) : ExamScheduler :=
  if decide (course ∈ courses s) then
    mkScheduler ((λ nbrs, nbrs ∖ {[course]}) <$> delete course (graph s))
                (courses s ∖ {[course]})
  else s.

(** [ExamScheduler.add_conflict] *)
Definition add_conflict (course1 course2 : string) (s : ExamScheduler)
  : ExamScheduler :=
  let g1 := graph_add (graph s) course1 course2 in
  let g2 := graph_add g1 course2 course1 in
  mkScheduler g2 (courses s ∪ {[course1; course2]}).

(** How a call ends: it returns a new state, or raises. [InvalidConflict] is
    the error the design document names; no statement of [main.py] raises it. *)
Inductive error := InvalidConflict.

Inductive outcome :=
  | Returned (s : ExamScheduler)
  | Raised (e : error).

(** A call of [add_conflict]: its three statements are two set insertions
    and one set update, none of which raises on course names. *)
Definition call_add_conflict (course1 course2 : string) (s : ExamScheduler)
  : outcome :=
  Returned (add_conflict course1 course2 s).

(** ** The conflict handler of the user interface

    [ExamPlannerUI.add_conflict], on the two entry texts after [strip()]. It
    answers with a message box and calls the scheduler only when every check
    passes. *)
Inductive dialog :=
  | showwarning (title message : string)
  | showinfo (title message : string).

Definition ui_add_conflict (course1 course2 : string) (s : ExamScheduler)
  : dialog * ExamScheduler :=
  if decide (course1 = EmptyString ∨ course2 = EmptyString) then
    (showwarning "Input Error" "Please enter both course names.", s)
  else if decide (course1 = course2) then
    (showwarning "Input Error" "A course cannot conflict with itself.", s)
  else if decide (course1 ∉ courses s ∨ course2 ∉ courses s) then
    (showwarning "Input Error" "One or both courses don't exist. Add them first.", s)
  else
    (showinfo "Success"
       ("Conflict added between '" +:+ course1 +:+ "' and '" +:+ course2 +:+ "'."),
     add_conflict course1 course2 s).

(** ** [schedule_exams] *)

(** The key function of the sort, [lambda c: len(self.graph[c])], applied to
    the courses in enumeration order. Each read goes through the
    [defaultdict], so the mapping is threaded along. *)
Fixpoint sort_keys (enum : list string) (g : gmap string (gset string))
  : gmap string (gset string) * list (string * nat) :=
  match enum with
  | [] => (g, [])
  | c :: rest =>
      let '(g1, ns) := graph_getitem g c in
      let '(g2, ks) := sort_keys rest g1 in
      (g2, (c, size ns) :: ks)
  end.

(** [sorted(..., reverse=True)] is stable: it orders by key descending and
    keeps courses of equal key in their enumeration order. *)
Fixpoint insert_desc (x : string * nat) (l : list (string * nat))
  : list (string * nat) :=
  match l with
  | [] => [x]
  | y :: l' => if decide (x.2 < y.2) then y :: insert_desc x l' else x :: y :: l'
  end.

Definition sorted_desc (l : list (string * nat)) : list (string * nat) :=
  foldr insert_desc [] l.

(** [{time_slots[neighbor] for neighbor in self.graph[course]
      if neighbor in time_slots}] *)
Definition assigned_slots_of (nbrs : gset string) (time_slots : gmap string nat)
  : gset nat :=
  set_omap (λ neighbor, time_slots !! neighbor) nbrs.

(** The test of the [while] loop. [slot_counts[slot]] reads 0 for a slot
    without an entry. *)
Definition slot_taken (assigned_slots : gset nat) (slot_counts : gmap nat nat)
    (slot : nat) : Prop :=
  slot ∈ assigned_slots ∨ 2 ≤ slot_counts !!! slot.

Global Instance slot_taken_dec a c k : Decision (slot_taken a c k).
Proof. unfold slot_taken. apply _. Defined.

(** [while slot in assigned_slots or slot_counts[slot] >= 2: slot += 1] *)
Fixpoint find_slot (fuel : nat) (assigned_slots : gset nat)
    (slot_counts : gmap nat nat) (slot : nat) : option nat :=
  match fuel with
  | 0 => None
  | S fuel' =>
      if decide (slot_taken assigned_slots slot_counts slot)
      then find_slot fuel' assigned_slots slot_counts (S slot)
      else Some slot
  end.

(** The variables the [for] loop updates. *)
Record loop_state := mkLoop {
  ls_graph : gmap string (gset string);
  time_slots : gmap string nat;
  slot_counts : gmap nat nat
}.

(** One pass of the body of [for course in sorted_courses]. *)
Definition assign_course (fuel : nat) (st : loop_state) (course : string)
  : option loop_state :=
  let '(g1, nbrs) := graph_getitem (ls_graph st) course in
  let assigned_slots := assigned_slots_of nbrs (time_slots st) in
  slot ← find_slot fuel assigned_slots (slot_counts st) 1;
  Some (mkLoop g1
          (<[course := slot]> (time_slots st))
          (<[slot := S (slot_counts st !!! slot)]> (slot_counts st))).

Fixpoint assign_all (fuel : nat) (sorted_courses : list string) (st : loop_state)
  : option loop_state :=
  match sorted_courses with
  | [] => Some st
  | course :: rest => st' ← assign_course fuel st course; assign_all fuel rest st'
  end.

(** [ExamScheduler.schedule_exams]. [enum] is the order in which
    [self.courses] is enumerated by [sorted]; the result is the scheduler
    after the call and the returned [time_slots]. *)
Definition schedule_exams (fuel : nat) (enum : list string) (s : ExamScheduler)
  : option (ExamScheduler * gmap string nat) :=
  if decide (courses s = ∅) then Some (s, ∅)
  else
    let '(g1, ks) := sort_keys enum (graph s) in
    let sorted_courses := (sorted_desc ks).*1 in
    st ← assign_all fuel sorted_courses (mkLoop g1 ∅ ∅);
    Some (mkScheduler (ls_graph st) (courses s), time_slots st).

(** Number of courses an assignment puts in slot [k]. *)
Definition occupancy (a : gmap string nat) (k : nat) : nat :=
  size (filter (λ p : string * nat, p.2 = k) a).

(** The mapping after the courses of [l] have been read through the
    [defaultdict]: old entries stay, each course of [l] without one gets the
    empty set. *)
Definition touched (l : list string) (g : gmap string (gset string)) (c : string)
  : option (gset string) :=
  match g !! c with
  | Some ns => Some ns
  | None => if decide (c ∈ l) then Some ∅ else None
  end.

(** The courses in the order the loop visits them. *)
Definition sorted_courses (enum : list string) (g : gmap string (gset string))
  : list string :=
  (sorted_desc (sort_keys enum g).2).*1.

(** What holds of the loop variables once the courses of [D] have been
    placed, [g0] being the conflict mapping at the start of the call. *)
Record loop_inv (g0 : gmap string (gset string)) (D : gset string)
    (st : loop_state) : Prop := mkInv {
  inv_graph : ∀ c, neighbors (ls_graph st) c = neighbors g0 c;
  inv_dom : dom (time_slots st) = D;
  inv_counts : ∀ k, slot_counts st !!! k = occupancy (time_slots st) k;
  inv_capacity : ∀ k, occupancy (time_slots st) k ≤ 2;
  inv_positive : ∀ c k, time_slots st !! c = Some k → 1 ≤ k;
  inv_contiguous : ∀ c k t,
    time_slots st !! c = Some k → 1 ≤ t < k → ∃ c', time_slots st !! c' = Some t;
  inv_conflict :
    (∀ a b, b ∈ neighbors g0 a → a ∈ neighbors g0 b) →
    ∀ a b ka kb, a ≠ b → b ∈ neighbors g0 a →
      time_slots st !! a = Some ka → time_slots st !! b = Some kb → ka ≠ kb
}.

(** The relation the design document asks of a schedule, read on every pair:
    two courses in conflict never hold the same slot. *)
Definition conflict_free (s : ExamScheduler) (asg : gmap string nat) : Prop :=
  ∀ a b, conflicts s a b → asg !! a ≠ asg !! b.

(** ** States of a running scheduler *)

Inductive reachable : ExamScheduler → Prop :=
  | reach_init : reachable init
  | reach_add_course c s : reachable s → reachable (add_course c s)
  | reach_remove_course c s : reachable s → reachable (remove_course c s)
  | reach_add_conflict a b s : reachable s → reachable (add_conflict a b s)
  | reach_schedule fuel enum s s' a :
      reachable s → enum ≡ₚ elements (courses s) →
      schedule_exams fuel enum s = Some (s', a) → reachable s'.

(** The same, when [add_conflict] is only called on two different courses,
    as the user interface and the example data do. *)
Inductive reachable_distinct : ExamScheduler → Prop :=
  | reachd_init : reachable_distinct init
  | reachd_add_course c s : reachable_distinct s → reachable_distinct (add_course c s)
  | reachd_remove_course c s :
      reachable_distinct s → reachable_distinct (remove_course c s)
  | reachd_add_conflict a b s :
      a ≠ b → reachable_distinct s → reachable_distinct (add_conflict a b s)
  | reachd_schedule fuel enum s s' a :
      reachable_distinct s → enum ≡ₚ elements (courses s) →
      schedule_exams fuel enum s = Some (s', a) → reachable_distinct s'.

Definition graph_symmetric (s : ExamScheduler) : Prop :=
  ∀ a b, conflicts s a b → conflicts s b a.

Definition graph_irreflexive (s : ExamScheduler) : Prop :=
  ∀ a, ¬ conflicts s a a.

(** Every key of the mapping and every member of a conflict set is a
    registered course. *)
Definition graph_closed (s : ExamScheduler) : Prop :=
  (∀ a, is_Some (graph s !! a) → a ∈ courses s) ∧
  (∀ a b, conflicts s a b → a ∈ courses s ∧ b ∈ courses s).

(** ** Sample states *)

Definition square : ExamScheduler :=
  add_conflict "A" "D" (add_conflict "C" "D" (add_conflict "B" "C"
    (add_conflict "A" "B" init))).

Definition self_loop : ExamScheduler := add_conflict "A" "A" init.

Definition lone_course : ExamScheduler := add_course "X" init.

(** [lone_course] after a call of [schedule_exams]. *)
Definition lone_course_scheduled : ExamScheduler :=
  mkScheduler {["X" := ∅]} {["X"]}.

(** The two assignments of the four-cycle. *)
Definition slots_AC : gmap string nat :=
  {["A" := 1; "B" := 2; "C" := 1; "D" := 2]}.
Definition slots_BD : gmap string nat :=
  {["A" := 2; "B" := 1; "C" := 2; "D" := 1]}.

(** [len(slot_dict)] of [display_schedule]: the number of slots in use. *)
Definition total_slots (asg : gmap string nat) : nat :=
  size (map_img asg : gset nat).

(** ** Degrees *)

(** [len(self.graph[c])]: the number of courses [c] conflicts with. *)
Definition degree (g : gmap string (gset string)) (c : string) : nat :=
  size (neighbors g c).

(** A bound kept by the loop of [schedule_exams] once the courses of [D] are
    placed: the slot of a course exceeds its degree by at most half the number
    of courses placed. *)
Definition slot_bound (g0 : gmap string (gset string)) (D : gset string)
    (st : loop_state) : Prop :=
  ∀ c k, time_slots st !! c = Some k → 2 * k ≤ 2 * degree g0 c + size D + 1.

(** The loop variables when the courses of [placed] have been placed, in
    this order, two per slot. *)
Definition packed (placed : list string) (st : loop_state) : Prop :=
  (∀ i c, placed !! i = Some c → time_slots st !! c = Some (i / 2 + 1)) ∧
  (∀ t, occupancy (time_slots st) t =
        if decide (1 ≤ t ≤ length placed / 2) then 2
        else if decide (t = length placed / 2 + 1) then length placed mod 2
        else 0).

(** ** The window

    [ExamPlannerUI], reduced to what its handlers compute: the scheduler,
    [schedule_result], the lines of the course list box and the text of the
    result pane. A handler takes what the user entered (an entry text after
    [strip()], the selected indices, the answer to a question) and returns
    the message box it opens, if any, with the new window state. Handlers
    that call [schedule_exams] take its fuel and enumeration order along. *)

(** The line feed. *)
Definition nl : string := String (Ascii.ascii_of_nat 10) EmptyString.

(** [s * n] on a [str]. *)
Fixpoint str_mul (s : string) (n : nat) : string :=
  match n with
  | 0 => EmptyString
  | S n' => s +:+ str_mul s n'
  end.

(** [sorted] on a collection of [str]: ascending, by code points. *)
Definition sorted_names (l : list string) : list string :=
  merge_sort String.le l.

Record ExamPlannerUI := mkUI {
  scheduler : ExamScheduler;
  schedule_result : gmap string nat;
  courses_listbox : list string;
  result_text : string
}.

Definition example_courses : list string :=
  ["Maths(CSE/IT)"; "Physics(CSE/IT)"; "Basic Electrical Engineering(CSE/IT)";
   "English(CSE/IT)"; "Programming for Problem solving(CT)"; "Maths(CT)";
   "Chemistry(CT)"; "Electronics(CT)"].

Definition example_conflicts : list (string * string) :=
  [("Maths(CSE/IT)", "Physics(CSE/IT)");
   ("Maths(CSE/IT)", "Basic Electrical Engineering(CSE/IT)");
   ("Basic Electrical Engineering(CSE/IT)", "Physics(CSE/IT)");
   ("English(CSE/IT)", "Maths(CSE/IT)");
   ("Physics(CSE/IT)", "English(CSE/IT)");
   ("Basic Electrical Engineering(CSE/IT)", "English(CSE/IT)");
   ("Programming for Problem solving(CT)", "Maths(CT)");
   ("Programming for Problem solving(CT)", "Chemistry(CT)");
   ("Maths(CT)", "Electronics(CT)");
   ("Maths(CT)", "Chemistry(CT)");
   ("Electronics(CT)", "Programming for Problem solving(CT)");
   ("Chemistry(CT)", "Electronics(CT)");
   ("Maths(CT)", "Maths(CSE/IT)")].

(** [ExamPlannerUI.load_example_data]: the calls of [add_course], then the
    calls of [add_conflict], in the order of the source. *)
Definition load_example_data (s : ExamScheduler) : ExamScheduler :=
  foldl (λ s p, add_conflict p.1 p.2 s)
        (foldl (λ s c, add_course c s) s example_courses)
        example_conflicts.

Global Arguments load_example_data : simpl never.

(** [ExamPlannerUI.update_courses_list] *)
Definition update_courses_list (ui : ExamPlannerUI) : ExamPlannerUI :=
  mkUI (scheduler ui) (schedule_result ui)
       (sorted_names (elements (courses (scheduler ui))))
       (result_text ui).

(** [slot_dict] of [display_schedule]: the courses of each slot, in the
    order in which the assignment is enumerated. *)
Definition slot_dict_add (d : gmap nat (list string)) (item : string * nat)
  : gmap nat (list string) :=
  <[item.2 := (default [] (d !! item.2) ++ [item.1])%list]> d.

Definition slot_dict (asg : gmap string nat) : gmap nat (list string) :=
  foldl slot_dict_add ∅ (map_to_list asg).

(** The slots [display_schedule] prints, each with its course names:
    [sorted(slot_dict.keys())] and, per slot, [sorted(slot_dict[slot])]. *)
Definition shown_slots (asg : gmap string nat) : list (nat * list string) :=
  (λ slot, (slot, sorted_names (default [] (slot_dict asg !! slot))))
    <$> merge_sort (≤) (map_to_list (slot_dict asg)).*1.

Definition show_slot (entry : nat * list string) : string :=
  "⏰ TIME SLOT " +:+ pretty entry.1 +:+ ":" +:+ nl +:+
  String.concat EmptyString ((λ course, "   • " +:+ course +:+ nl) <$> entry.2) +:+
  nl.

(** The text [display_schedule] writes into the result pane. *)
Definition schedule_text (asg : gmap string nat) : string :=
  if decide (asg = ∅) then
    "No schedule generated yet." +:+ nl +:+ nl +:+
    "Click 'Generate Schedule' to create one."
  else
    str_mul "=" 50 +:+ nl +:+ "EXAM SCHEDULE" +:+ nl +:+ str_mul "=" 50 +:+ nl +:+ nl +:+
    String.concat EmptyString (show_slot <$> shown_slots asg) +:+
    str_mul "=" 50 +:+ nl +:+
    "Total Time Slots: " +:+ pretty (size (slot_dict asg)) +:+ nl +:+
    "Total Courses: " +:+ pretty (size asg) +:+ nl.

(** [ExamPlannerUI.display_schedule] *)
Definition display_schedule (ui : ExamPlannerUI) : ExamPlannerUI :=
  mkUI (scheduler ui) (schedule_result ui) (courses_listbox ui)
       (schedule_text (schedule_result ui)).

(** [ExamPlannerUI.display_initial_schedule] *)
Definition display_initial_schedule (fuel : nat) (enum : list string)
    (ui : ExamPlannerUI) : option ExamPlannerUI :=
  r ← schedule_exams fuel enum (scheduler ui);
  Some (display_schedule (mkUI r.1 r.2 (courses_listbox ui) (result_text ui))).

(** [ExamPlannerUI.__init__]: a new scheduler with the example data, then
    [setup_ui], which ends by filling the list box and showing a first
    schedule. *)
Definition ui_new (fuel : nat) (enum : list string) : option ExamPlannerUI :=
  display_initial_schedule fuel enum
    (update_courses_list (mkUI (load_example_data init) ∅ [] EmptyString)).

(** [ExamPlannerUI.add_course], on the entry text after [strip()]. *)
Definition ui_add_course (course_name : string) (ui : ExamPlannerUI)
  : dialog * ExamPlannerUI :=
  if decide (course_name = EmptyString) then
    (showwarning "Input Error" "Please enter a course name.", ui)
  else if decide (course_name ∈ courses (scheduler ui)) then
    (showinfo "Info" "Course already exists.", ui)
  else
    (showinfo "Success" ("Course '" +:+ course_name +:+ "' added successfully."),
     update_courses_list
       (mkUI (add_course course_name (scheduler ui)) (schedule_result ui)
             (courses_listbox ui) (result_text ui))).

(** [ExamPlannerUI.remove_selected_course]. [selection] is the tuple of
    [curselection()], whose indices point into the list box. *)
Definition ui_remove_selected_course (selection : list nat) (ui : ExamPlannerUI)
  : dialog * ExamPlannerUI :=
  match selection with
  | [] => (showwarning "Selection Error" "Please select a course to remove.", ui)
  | i :: _ =>
      let course_name := default EmptyString (courses_listbox ui !! i) in
      (showinfo "Success" ("Course '" +:+ course_name +:+ "' removed successfully."),
       update_courses_list
         (mkUI (remove_course course_name (scheduler ui)) (schedule_result ui)
               (courses_listbox ui) (result_text ui)))
  end.

(** [ExamPlannerUI.add_conflict] as a step of the window: [ui_add_conflict]
    on the scheduler, nothing else being refreshed. *)
Definition ui_add_conflict_step (course1 course2 : string) (ui : ExamPlannerUI)
  : dialog * ExamPlannerUI :=
  let r := ui_add_conflict course1 course2 (scheduler ui) in
  (r.1, mkUI r.2 (schedule_result ui) (courses_listbox ui) (result_text ui)).

(** [ExamPlannerUI.generate_schedule] *)
Definition ui_generate_schedule (fuel : nat) (enum : list string)
    (ui : ExamPlannerUI) : option (option dialog * ExamPlannerUI) :=
  if decide (courses (scheduler ui) = ∅) then
    Some (Some (showwarning "No Data" "Please add courses first."), ui)
  else
    r ← schedule_exams fuel enum (scheduler ui);
    Some (None,
          display_schedule (mkUI r.1 r.2 (courses_listbox ui) (result_text ui))).

(** [ExamPlannerUI.reset]; [confirmed] is the answer to [askyesno]. *)
Definition ui_reset (confirmed : bool) (fuel : nat) (enum : list string)
    (ui : ExamPlannerUI) : option (option dialog * ExamPlannerUI) :=
  if confirmed then
    let ui1 := update_courses_list (mkUI init ∅ (courses_listbox ui) (result_text ui)) in
    let ui2 := mkUI (load_example_data (scheduler ui1)) (schedule_result ui1)
                    (courses_listbox ui1) (result_text ui1) in
    ui3 ← display_initial_schedule fuel enum ui2;
    Some (Some (showinfo "Reset" "All data cleared. Example data reloaded."), ui3)
  else Some (None, ui).

(** The states the window goes through. *)
Inductive ui_reachable : ExamPlannerUI → Prop :=
  | ui_reach_new fuel enum ui :
      enum ≡ₚ elements (courses (load_example_data init)) →
      ui_new fuel enum = Some ui → ui_reachable ui
  | ui_reach_add_course name ui :
      ui_reachable ui → ui_reachable (ui_add_course name ui).2
  | ui_reach_remove selection ui :
      ui_reachable ui → ui_reachable (ui_remove_selected_course selection ui).2
  | ui_reach_add_conflict c1 c2 ui :
      ui_reachable ui → ui_reachable (ui_add_conflict_step c1 c2 ui).2
  | ui_reach_generate fuel enum ui d ui' :
      ui_reachable ui → enum ≡ₚ elements (courses (scheduler ui)) →
      ui_generate_schedule fuel enum ui = Some (d, ui') → ui_reachable ui'
  | ui_reach_reset confirmed fuel enum ui d ui' :
      ui_reachable ui → enum ≡ₚ elements (courses (load_example_data init)) →
      ui_reset confirmed fuel enum ui = Some (d, ui') → ui_reachable ui'.

(** What every state of the window satisfies. *)
Definition ui_invariant (ui : ExamPlannerUI) : Prop :=
  reachable_distinct (scheduler ui) ∧
  (EmptyString ∉ courses (scheduler ui)) ∧
  (courses_listbox ui = [] ∨
   courses_listbox ui = sorted_names (elements (courses (scheduler ui)))).

(** A new window, the fuel and the enumeration order being fixed. *)
Definition first_window : option ExamPlannerUI :=
  ui_new 8 (elements (courses (load_example_data init))).


(** ** Reading and writing the conflict mapping *)

Lemma graph_getitem_snd g c : (graph_getitem g c).2 = neighbors g c.
Proof. unfold graph_getitem, neighbors. by destruct (g !! c). Qed.

Lemma graph_getitem_lookup g c c' :
  (graph_getitem g c).1 !! c' =
  match g !! c' with
  | Some ns => Some ns
  | None => if decide (c = c') then Some ∅ else None
  end.
Proof.
  unfold graph_getitem. destruct (g !! c) as [ns|] eqn:E; simpl.
  - destruct (g !! c') eqn:E'; [done|]. case_decide; congruence.
  - rewrite lookup_insert. case_decide; subst.
    + by rewrite E.
    + by destruct (g !! c').
Qed.

Lemma graph_getitem_neighbors g c c' :
  neighbors (graph_getitem g c).1 c' = neighbors g c'.
Proof.
  unfold neighbors. rewrite graph_getitem_lookup.
  destruct (g !! c'); [done|]. by case_decide.
Qed.

Lemma graph_add_neighbors g c x c' :
  neighbors (graph_add g c x) c' =
  if decide (c = c') then neighbors g c ∪ {[x]} else neighbors g c'.
Proof.
  unfold graph_add.
  pose proof (graph_getitem_snd g c) as H2.
  pose proof (graph_getitem_neighbors g c c') as H1.
  destruct (graph_getitem g c) as [g1 ns]; simpl in *; subst ns.
  unfold neighbors at 1. rewrite lookup_insert.
  case_decide; [done|]. exact H1.
Qed.

Lemma graph_add_is_Some g c x c' :
  is_Some (graph_add g c x !! c') ↔ c = c' ∨ is_Some (g !! c').
Proof.
  unfold graph_add.
  pose proof (graph_getitem_lookup g c c') as H1.
  destruct (graph_getitem g c) as [g1 ns]; simpl in *.
  rewrite lookup_insert. destruct (decide (c = c')) as [->|Hne].
  - split; eauto.
  - rewrite H1. destruct (g !! c'); [naive_solver|].
    split; [intros [? ?]; done|intros [?|[? ?]]; done].
Qed.

Lemma conflicts_add_course c s a b :
  conflicts (add_course c s) a b ↔ conflicts s a b.
Proof. done. Qed.

Lemma conflicts_add_conflict x y s a b :
  conflicts (add_conflict x y s) a b ↔
  conflicts s a b ∨ (a = x ∧ b = y) ∨ (a = y ∧ b = x).
Proof.
  unfold conflicts, add_conflict; simpl.
  rewrite !graph_add_neighbors.
  repeat case_decide; subst; set_solver.
Qed.

Lemma neighbors_remove_course x s a :
  x ∈ courses s →
  neighbors (graph (remove_course x s)) a =
  if decide (a = x) then ∅ else neighbors (graph s) a ∖ {[x]}.
Proof.
  intros Hx. unfold remove_course. rewrite decide_True by done. simpl.
  unfold neighbors. rewrite lookup_fmap, lookup_delete.
  case_decide; subst.
  - rewrite decide_True by done. done.
  - rewrite decide_False by done. destruct (graph s !! a); simpl; set_solver.
Qed.

Lemma conflicts_remove_course x s a b :
  x ∈ courses s →
  conflicts (remove_course x s) a b ↔ conflicts s a b ∧ a ≠ x ∧ b ≠ x.
Proof.
  intros Hx. unfold conflicts. rewrite neighbors_remove_course by done.
  case_decide; set_solver.
Qed.

Lemma remove_course_absent x s : x ∉ courses s → remove_course x s = s.
Proof. intros Hx. unfold remove_course. by rewrite decide_False. Qed.

(** ** The sort *)

Lemma insert_desc_perm x l : insert_desc x l ≡ₚ x :: l.
Proof.
  induction l as [|y l IH]; simpl; [done|].
  case_decide; [|done]. rewrite IH. apply Permutation_swap.
Qed.

Lemma sorted_desc_perm l : sorted_desc l ≡ₚ l.
Proof.
  induction l as [|x l IH]; simpl; [done|].
  rewrite insert_desc_perm. by rewrite IH.
Qed.

Lemma sort_keys_names enum g : (sort_keys enum g).2.*1 = enum.
Proof.
  revert g. induction enum as [|c rest IH]; intros g; simpl; [done|].
  destruct (graph_getitem g c) as [g1 ns].
  specialize (IH g1). destruct (sort_keys rest g1) as [g2 ks]; simpl in *.
  by f_equal.
Qed.

Lemma sort_keys_graph enum g c :
  (sort_keys enum g).1 !! c = touched enum g c.
Proof.
  revert g. induction enum as [|x rest IH]; intros g; simpl.
  - unfold touched. destruct (g !! c); [done|]. rewrite decide_False; [done|].
    apply not_elem_of_nil.
  - pose proof (graph_getitem_lookup g x c) as Hx.
    destruct (graph_getitem g x) as [g1 ns]; simpl in Hx.
    specialize (IH g1). destruct (sort_keys rest g1) as [g2 ks]; simpl in *.
    rewrite IH. unfold touched. rewrite Hx.
    destruct (g !! c); [done|].
    destruct (decide (x = c)) as [->|Hne].
    + rewrite decide_True; [done|]. apply elem_of_cons; by left.
    + destruct (decide (c ∈ rest)).
      * rewrite decide_True; [done|]. apply elem_of_cons; by right.
      * rewrite decide_False; [done|]. rewrite elem_of_cons. naive_solver.
Qed.

Lemma touched_neighbors enum g g' c :
  (∀ c, g' !! c = touched enum g c) → neighbors g' c = neighbors g c.
Proof.
  intros H. unfold neighbors. rewrite H. unfold touched.
  destruct (g !! c); [done|]. by case_decide.
Qed.

(** ** Occupancy of a slot *)

Lemma occupancy_empty k : occupancy ∅ k = 0.
Proof. unfold occupancy. by rewrite map_filter_empty, map_size_empty. Qed.

Lemma occupancy_insert_fresh (a : gmap string nat) c k k' :
  a !! c = None →
  occupancy (<[c := k]> a) k' =
  if decide (k = k') then S (occupancy a k') else occupancy a k'.
Proof.
  intros Hc. unfold occupancy. case_decide.
  - rewrite map_filter_insert_True by done.
    apply map_size_insert_None. apply map_lookup_filter_None. by left.
  - rewrite map_filter_insert_False by done. by rewrite delete_id.
Qed.

Lemma occupancy_pos (a : gmap string nat) c k :
  a !! c = Some k → 1 ≤ occupancy a k.
Proof.
  intros Hc. unfold occupancy.
  assert (size (filter (λ p : string * nat, p.2 = k) a) ≠ 0); [|lia].
  apply (map_size_ne_0_lookup_2 _ c). exists k.
  by apply map_lookup_filter_Some.
Qed.

Lemma occupancy_witness (a : gmap string nat) k :
  1 ≤ occupancy a k → ∃ c, a !! c = Some k.
Proof.
  unfold occupancy. intros H.
  destruct (map_size_ne_0_lookup_1 (filter (λ p : string * nat, p.2 = k) a))
    as [c [x Hx]]; [lia|].
  apply map_lookup_filter_Some in Hx as [Hx Hk]. simpl in Hk. subst. eauto.
Qed.

(** ** The slot search *)

Lemma find_slot_spec fuel assigned counts start k :
  find_slot fuel assigned counts start = Some k →
  start ≤ k ∧ ¬ slot_taken assigned counts k ∧
  ∀ t, start ≤ t < k → slot_taken assigned counts t.
Proof.
  revert start. induction fuel as [|fuel IH]; intros start; simpl; [done|].
  case_decide as Htaken.
  - intros Hk. destruct (IH _ Hk) as (Hle & Hfree & Hbelow).
    split; [lia|]. split; [done|]. intros t Ht.
    destruct (decide (t = start)) as [->|]; [done|]. apply Hbelow. lia.
  - intros [= <-]. split; [lia|]. split; [done|]. intros t Ht. lia.
Qed.

(** The search succeeds as soon as the fuel exceeds the number of taken
    slots: every pass of the loop leaves one taken slot behind. *)
Lemma find_slot_enough fuel assigned counts (l : list nat) start :
  (∀ t, start ≤ t → slot_taken assigned counts t → t ∈ l) →
  length l < fuel →
  is_Some (find_slot fuel assigned counts start).
Proof.
  revert l start. induction fuel as [|fuel IH]; intros l start Hl Hlen; [lia|].
  simpl. case_decide as Htaken; [|eauto].
  apply (IH (filter (λ t, t ≠ start) l)).
  - intros t Ht Htk. apply list_elem_of_filter. split; [lia|].
    apply Hl; [lia|done].
  - assert (start ∈ l) as Hin by (apply Hl; [lia|done]).
    pose proof (length_filter_lt (λ t, t ≠ start) l start Hin).
    naive_solver lia.
Qed.

(** More fuel does not change a result. *)
Lemma find_slot_mono fuel fuel' assigned counts start k :
  fuel ≤ fuel' →
  find_slot fuel assigned counts start = Some k →
  find_slot fuel' assigned counts start = Some k.
Proof.
  revert fuel' start. induction fuel as [|fuel IH]; intros fuel' start Hle; [done|].
  destruct fuel' as [|fuel']; [lia|]. simpl.
  case_decide; [|done]. apply IH. lia.
Qed.

(** ** The invariant of the [for] loop *)

Section greedy.

(** The conflict mapping at the start of the call. *)
Variable g0 : gmap string (gset string).

Lemma loop_inv_start g :
  (∀ c, neighbors g c = neighbors g0 c) → loop_inv g0 ∅ (mkLoop g ∅ ∅).
Proof.
  intros Hg. split; simpl.
  - done.
  - apply dom_empty_L.
  - intros k. by rewrite lookup_total_empty, occupancy_empty.
  - intros k. rewrite occupancy_empty. lia.
  - intros c k Hc. by rewrite lookup_empty in Hc.
  - intros c k t Hc. by rewrite lookup_empty in Hc.
  - intros _ a b ka kb _ _ Ha. by rewrite lookup_empty in Ha.
Qed.

(** A taken slot already holds a course. *)
Lemma slot_taken_occupied D st nbrs t :
  loop_inv g0 D st →
  slot_taken (assigned_slots_of nbrs (time_slots st)) (slot_counts st) t →
  ∃ c, time_slots st !! c = Some t.
Proof.
  intros Hinv [Hin|Hfull].
  - apply elem_of_set_omap in Hin as (n & _ & Hn). eauto.
  - rewrite (inv_counts _ _ _ Hinv) in Hfull. apply occupancy_witness. lia.
Qed.

Lemma assign_course_inv fuel D st c st' :
  loop_inv g0 D st → c ∉ D →
  assign_course fuel st c = Some st' →
  loop_inv g0 ({[c]} ∪ D) st'.
Proof.
  intros Hinv HcD. unfold assign_course.
  pose proof (graph_getitem_snd (ls_graph st) c) as Hnb.
  pose proof (graph_getitem_neighbors (ls_graph st) c) as Hg1.
  destruct (graph_getitem (ls_graph st) c) as [g1 nbrs]; simpl in Hnb, Hg1.
  rewrite (inv_graph _ _ _ Hinv) in Hnb. subst nbrs.
  destruct (find_slot fuel _ _ 1) as [k|] eqn:Hfind; [|done].
  intros [= <-].
  apply find_slot_spec in Hfind as (Hk1 & Hfree & Hbelow).
  assert (time_slots st !! c = None) as Hfresh.
  { apply not_elem_of_dom. by rewrite (inv_dom _ _ _ Hinv). }
  assert (∀ x t, time_slots st !! x = Some t →
            <[c := k]> (time_slots st) !! x = Some t) as Hkeep.
  { intros x t Hx. rewrite lookup_insert_ne; [done|]. congruence. }
  split; simpl.
  - intros c'. rewrite Hg1. apply (inv_graph _ _ _ Hinv).
  - rewrite dom_insert_L. by rewrite (inv_dom _ _ _ Hinv).
  - intros k'. rewrite occupancy_insert_fresh by done.
    rewrite lookup_total_insert. case_decide; subst.
    + by rewrite (inv_counts _ _ _ Hinv).
    + apply (inv_counts _ _ _ Hinv).
  - intros k'. rewrite occupancy_insert_fresh by done.
    case_decide; subst; [|apply (inv_capacity _ _ _ Hinv)].
    assert (¬ 2 ≤ slot_counts st !!! k') as Hlt.
    { intros ?. apply Hfree. by right. }
    rewrite (inv_counts _ _ _ Hinv) in Hlt. lia.
  - intros c' k'. rewrite lookup_insert_Some.
    intros [[_ <-]|[_ Hc']]; [done|]. by apply (inv_positive _ _ _ Hinv c').
  - intros c' k' t. rewrite lookup_insert_Some.
    intros [[_ <-]|[_ Hc']] Ht.
    + destruct (slot_taken_occupied D st (neighbors g0 c) t Hinv (Hbelow t Ht))
        as [x Hx]. eauto.
    + destruct (inv_contiguous _ _ _ Hinv c' k' t Hc' Ht) as [x Hx]. eauto.
  - intros Hsym a b ka kb Hab Hconf.
    rewrite !lookup_insert_Some.
    intros [[<- <-]|[Hca Ha]] [[Hcb Hb]|[Hcb Hb]]; subst; try done.
    + intros ->. apply Hfree. left.
      apply elem_of_set_omap. exists b; eauto.
    + intros ->. apply Hfree. left.
      apply elem_of_set_omap. exists a; eauto.
    + by apply (inv_conflict _ _ _ Hinv Hsym a b).
Qed.

Lemma assign_course_enough fuel D st c :
  loop_inv g0 D st → size D < fuel → is_Some (assign_course fuel st c).
Proof.
  intros Hinv Hfuel. unfold assign_course.
  pose proof (graph_getitem_snd (ls_graph st) c) as Hnb.
  destruct (graph_getitem (ls_graph st) c) as [g1 nbrs]; simpl in Hnb.
  destruct (find_slot_enough fuel (assigned_slots_of nbrs (time_slots st))
              (slot_counts st) (map_to_list (time_slots st)).*2 1) as [k Hk].
  - intros t _ Ht.
    destruct (slot_taken_occupied D st nbrs t Hinv Ht) as [x Hx].
    apply list_elem_of_fmap. exists (x, t). split; [done|].
    by apply elem_of_map_to_list.
  - rewrite length_fmap, length_map_to_list, <- (size_dom (D:=gset string)).
    by rewrite (inv_dom _ _ _ Hinv).
  - rewrite Hk. simpl. eauto.
Qed.

Lemma assign_all_inv fuel cs D st st' :
  NoDup cs → (∀ c, c ∈ cs → c ∉ D) → loop_inv g0 D st →
  assign_all fuel cs st = Some st' →
  loop_inv g0 (list_to_set cs ∪ D) st'.
Proof.
  revert D st. induction cs as [|c cs IH]; intros D st Hnd Hdisj Hinv; simpl.
  - intros [= <-]. by rewrite (left_id_L ∅ (∪)).
  - destruct (assign_course fuel st c) as [st1|] eqn:Hstep; [|done]. simpl.
    intros Hrest. apply NoDup_cons in Hnd as [Hc Hnd].
    assert (c ∉ D) as HcD by (apply Hdisj, elem_of_cons; by left).
    replace ({[c]} ∪ list_to_set cs ∪ D) with (list_to_set cs ∪ ({[c]} ∪ D))
      by set_solver.
    apply (IH ({[c]} ∪ D) st1); [done| |by eapply assign_course_inv|done].
    intros x Hx. pose proof (Hdisj x). set_solver.
Qed.

Lemma assign_all_enough fuel cs D st :
  NoDup cs → (∀ c, c ∈ cs → c ∉ D) → loop_inv g0 D st →
  size D + length cs ≤ fuel →
  is_Some (assign_all fuel cs st).
Proof.
  revert D st. induction cs as [|c cs IH]; intros D st Hnd Hdisj Hinv Hfuel; simpl.
  - eauto.
  - apply NoDup_cons in Hnd as [Hc Hnd].
    assert (c ∉ D) as HcD by (apply Hdisj, elem_of_cons; by left).
    destruct (assign_course_enough fuel D st c Hinv) as [st1 Hstep];
      [simpl in Hfuel; lia|].
    rewrite Hstep. simpl.
    apply (IH ({[c]} ∪ D) st1); [done| |by eapply assign_course_inv|].
    + intros x Hx. pose proof (Hdisj x). set_solver.
    + rewrite size_union by set_solver. rewrite size_singleton.
      simpl in Hfuel. lia.
Qed.

End greedy.

(** ** The whole call *)

Lemma assign_course_graph fuel st c st' :
  assign_course fuel st c = Some st' →
  ∀ x, ls_graph st' !! x = touched [c] (ls_graph st) x.
Proof.
  unfold assign_course.
  pose proof (graph_getitem_lookup (ls_graph st) c) as Hg1.
  destruct (graph_getitem (ls_graph st) c) as [g1 nbrs]; simpl in Hg1.
  destruct (find_slot fuel _ _ 1) as [k|]; [|done].
  intros [= <-] x. simpl. rewrite Hg1. unfold touched.
  destruct (ls_graph st !! x); [done|].
  destruct (decide (c = x)) as [->|Hne].
  - rewrite decide_True; [done|]. apply list_elem_of_singleton. done.
  - rewrite decide_False; [done|]. rewrite list_elem_of_singleton. congruence.
Qed.

Lemma touched_touched l1 l2 (g g1 g2 : gmap string (gset string)) :
  (∀ x, g1 !! x = touched l1 g x) →
  (∀ x, g2 !! x = touched l2 g1 x) →
  ∀ x, g2 !! x = touched (l1 ++ l2) g x.
Proof.
  intros H1 H2 x. rewrite H2. unfold touched at 1. rewrite H1. unfold touched.
  destruct (g !! x); [done|].
  destruct (decide (x ∈ l1)).
  - rewrite decide_True; [done|]. apply elem_of_app; by left.
  - destruct (decide (x ∈ l2)).
    + rewrite decide_True; [done|]. apply elem_of_app; by right.
    + rewrite decide_False; [done|]. rewrite elem_of_app. tauto.
Qed.

Lemma touched_ext l l' g x :
  (∀ c, c ∈ l ↔ c ∈ l') → touched l g x = touched l' g x.
Proof.
  intros H. unfold touched. destruct (g !! x); [done|].
  destruct (decide (x ∈ l)) as [Hin|Hin].
  - rewrite decide_True; [done|]. by apply H.
  - rewrite decide_False; [done|]. by rewrite <- H.
Qed.

Lemma assign_all_graph fuel cs st st' :
  assign_all fuel cs st = Some st' →
  ∀ x, ls_graph st' !! x = touched cs (ls_graph st) x.
Proof.
  revert st. induction cs as [|c cs IH]; intros st; simpl.
  - intros [= <-] x. unfold touched. destruct (ls_graph st !! x); [done|].
    rewrite decide_False; [done|]. apply not_elem_of_nil.
  - destruct (assign_course fuel st c) as [st1|] eqn:Hstep; [|done]. simpl.
    intros Hrest.
    apply (touched_touched [c] cs (ls_graph st) (ls_graph st1));
      [by eapply assign_course_graph|by apply IH].
Qed.

Lemma sorted_courses_perm enum g : sorted_courses enum g ≡ₚ enum.
Proof.
  unfold sorted_courses. rewrite sorted_desc_perm. by rewrite sort_keys_names.
Qed.

Lemma schedule_exams_unfold fuel enum s :
  courses s ≠ ∅ →
  schedule_exams fuel enum s =
  st ← assign_all fuel (sorted_courses enum (graph s))
         (mkLoop (sort_keys enum (graph s)).1 ∅ ∅);
  Some (mkScheduler (ls_graph st) (courses s), time_slots st).
Proof.
  intros Hne. unfold schedule_exams, sorted_courses.
  rewrite decide_False by done.
  by destruct (sort_keys enum (graph s)) as [g1 ks].
Qed.

(** What a finished call returns and leaves behind. *)
Lemma schedule_exams_run fuel enum s s' a :
  enum ≡ₚ elements (courses s) →
  schedule_exams fuel enum s = Some (s', a) →
  courses s' = courses s ∧
  (∀ x, graph s' !! x = touched (elements (courses s)) (graph s) x) ∧
  ∃ st, loop_inv (graph s) (courses s) st ∧ a = time_slots st.
Proof.
  intros Hperm. destruct (decide (courses s = ∅)) as [Hempty|Hne].
  - unfold schedule_exams. rewrite decide_True by done. intros [= <- <-].
    split; [done|]. split.
    + intros x. rewrite Hempty, elements_empty. unfold touched.
      destruct (graph s !! x); [done|]. rewrite decide_False; [done|].
      apply not_elem_of_nil.
    + exists (mkLoop (graph s) ∅ ∅). split; [|done].
      rewrite Hempty. by apply loop_inv_start.
  - rewrite schedule_exams_unfold by done.
    destruct (assign_all _ _ _) as [st|] eqn:Hloop; [|done]. simpl.
    intros [= <- <-]. simpl. split; [done|].
    pose proof (sorted_courses_perm enum (graph s)) as Hsorted.
    pose proof (sort_keys_graph enum (graph s)) as Hkeys.
    split.
    + intros x.
      rewrite (touched_touched enum (sorted_courses enum (graph s)) (graph s)
                 (sort_keys enum (graph s)).1 (ls_graph st)); [|done|].
      * apply touched_ext. intros c. rewrite elem_of_app, Hsorted, Hperm. tauto.
      * intros y. by apply (assign_all_graph _ _ _ _ Hloop).
    + exists st. split; [|done].
      assert (NoDup (sorted_courses enum (graph s))) as Hnd.
      { rewrite Hsorted, Hperm. apply NoDup_elements. }
      pose proof (assign_all_inv (graph s) fuel _ ∅
                    (mkLoop (sort_keys enum (graph s)).1 ∅ ∅) st Hnd) as Hinv.
      replace (courses s) with
        (list_to_set (sorted_courses enum (graph s)) ∪ (∅ : gset string)).
      * apply Hinv; [set_solver| |done]. apply loop_inv_start.
        intros c. by apply (touched_neighbors enum).
      * apply set_eq. intros c.
        rewrite elem_of_union, elem_of_list_to_set, Hsorted, Hperm, elem_of_elements.
        set_solver.
Qed.

(** The call returns as soon as the fuel covers the number of courses. *)
Lemma schedule_exams_enough fuel enum s :
  enum ≡ₚ elements (courses s) →
  size (courses s) ≤ fuel →
  is_Some (schedule_exams fuel enum s).
Proof.
  intros Hperm Hfuel. destruct (decide (courses s = ∅)) as [Hempty|Hne].
  - unfold schedule_exams. rewrite decide_True by done. eauto.
  - rewrite schedule_exams_unfold by done.
    pose proof (sorted_courses_perm enum (graph s)) as Hsorted.
    destruct (assign_all_enough (graph s) fuel (sorted_courses enum (graph s)) ∅
                (mkLoop (sort_keys enum (graph s)).1 ∅ ∅)) as [st Hst].
    + rewrite Hsorted, Hperm. apply NoDup_elements.
    + set_solver.
    + apply loop_inv_start. intros c.
      apply (touched_neighbors enum), sort_keys_graph.
    + rewrite size_empty, Hsorted, Hperm. exact Hfuel.
    + rewrite Hst. simpl. eauto.
Qed.

Lemma assign_course_mono fuel fuel' st c st' :
  fuel ≤ fuel' →
  assign_course fuel st c = Some st' → assign_course fuel' st c = Some st'.
Proof.
  intros Hle. unfold assign_course.
  destruct (graph_getitem (ls_graph st) c) as [g1 nbrs].
  destruct (find_slot fuel _ _ 1) as [k|] eqn:Hfind; [|done].
  by rewrite (find_slot_mono fuel fuel' _ _ _ k Hle Hfind).
Qed.

Lemma assign_all_mono fuel fuel' cs st st' :
  fuel ≤ fuel' →
  assign_all fuel cs st = Some st' → assign_all fuel' cs st = Some st'.
Proof.
  intros Hle. revert st. induction cs as [|c cs IH]; intros st; simpl; [done|].
  destruct (assign_course fuel st c) as [st1|] eqn:Hstep; [|done]. simpl.
  rewrite (assign_course_mono fuel fuel' st c st1 Hle Hstep). simpl. apply IH.
Qed.

(** A result does not depend on the fuel that was enough to reach it. *)
Lemma schedule_exams_mono fuel fuel' enum s r :
  fuel ≤ fuel' →
  schedule_exams fuel enum s = Some r → schedule_exams fuel' enum s = Some r.
Proof.
  intros Hle. unfold schedule_exams. case_decide; [done|].
  destruct (sort_keys enum (graph s)) as [g1 ks].
  destruct (assign_all fuel _ _) as [st|] eqn:Hloop; [|done].
  by rewrite (assign_all_mono fuel fuel' _ _ st Hle Hloop).
Qed.

Lemma conflicts_schedule_exams fuel enum s s' asg a b :
  enum ≡ₚ elements (courses s) →
  schedule_exams fuel enum s = Some (s', asg) →
  conflicts s' a b ↔ conflicts s a b.
Proof.
  intros Hperm Hrun.
  destruct (schedule_exams_run _ _ _ _ _ Hperm Hrun) as (_ & Hg & _).
  unfold conflicts. by rewrite (touched_neighbors _ _ _ a Hg).
Qed.

(** ** Invariants of the reachable states *)

Lemma conflicts_init a b : ¬ conflicts init a b.
Proof. unfold conflicts, neighbors, init. simpl. rewrite lookup_empty. set_solver. Qed.

Lemma conflicts_is_Some s a b : conflicts s a b → is_Some (graph s !! a).
Proof.
  unfold conflicts, neighbors. destruct (graph s !! a); [eauto|]. set_solver.
Qed.

Lemma reachable_symmetric s : reachable s → graph_symmetric s.
Proof.
  induction 1 as [|c s _ IH|c s _ IH|x y s _ IH|fuel enum s s' asg _ IH Hperm Hrun];
    intros a b.
  - intros H. by apply conflicts_init in H.
  - rewrite !conflicts_add_course. apply IH.
  - destruct (decide (c ∈ courses s)) as [Hc|Hc].
    + rewrite !conflicts_remove_course by done. intros (? & ? & ?).
      split; [by apply IH|done].
    + rewrite remove_course_absent by done. apply IH.
  - rewrite !conflicts_add_conflict. intros [?|[[-> ->]|[-> ->]]]; auto.
  - rewrite !(conflicts_schedule_exams _ _ _ _ _ _ _ Hperm Hrun). apply IH.
Qed.

Lemma reachable_closed s : reachable s → graph_closed s.
Proof.
  induction 1 as [|c s _ [IH1 IH2]|c s _ [IH1 IH2]|x y s _ [IH1 IH2]
                  |fuel enum s s' asg _ [IH1 IH2] Hperm Hrun].
  - split.
    + intros a [ns Hns]. simpl in Hns. by rewrite lookup_empty in Hns.
    + intros a b H. by apply conflicts_init in H.
  - split.
    + intros a Ha. simpl in *. apply IH1 in Ha. set_solver.
    + intros a b Hab. apply conflicts_add_course, IH2 in Hab. simpl. set_solver.
  - destruct (decide (c ∈ courses s)) as [Hc|Hc].
    + split.
      * intros a. unfold remove_course. rewrite decide_True by done. simpl.
        rewrite lookup_fmap, fmap_is_Some, lookup_delete.
        case_decide; [by intros [? ?]|]. intros Ha%IH1. set_solver.
      * intros a b. rewrite conflicts_remove_course by done.
        intros (Hab%IH2 & ? & ?). unfold remove_course.
        rewrite decide_True by done. simpl. set_solver.
    + rewrite remove_course_absent by done. by split.
  - split.
    + intros a. unfold add_conflict. simpl. rewrite !graph_add_is_Some.
      intros [<-|[<-|Ha%IH1]]; set_solver.
    + intros a b. rewrite conflicts_add_conflict. unfold add_conflict. simpl.
      intros [Hab%IH2|[[-> ->]|[-> ->]]]; set_solver.
  - destruct (schedule_exams_run _ _ _ _ _ Hperm Hrun) as (Hc & Hg & _).
    split.
    + intros a. rewrite Hg, Hc. unfold touched.
      destruct (graph s !! a) eqn:Ha.
      * intros _. apply IH1. by rewrite Ha.
      * case_decide as Hin; [|by intros [? ?]]. intros _.
        by apply elem_of_elements in Hin.
    + intros a b. rewrite (conflicts_schedule_exams _ _ _ _ _ _ _ Hperm Hrun), Hc.
      apply IH2.
Qed.

Lemma reachable_distinct_reachable s : reachable_distinct s → reachable s.
Proof. induction 1; econstructor; eauto. Qed.

Lemma reachable_distinct_irreflexive s : reachable_distinct s → graph_irreflexive s.
Proof.
  induction 1 as [|c s _ IH|c s _ IH|x y s Hxy _ IH|fuel enum s s' asg _ IH Hperm Hrun];
    intros a.
  - apply conflicts_init.
  - rewrite conflicts_add_course. apply IH.
  - destruct (decide (c ∈ courses s)) as [Hc|Hc].
    + rewrite conflicts_remove_course by done. intros (? & _). by apply (IH a).
    + rewrite remove_course_absent by done. apply IH.
  - rewrite conflicts_add_conflict.
    intros [?|[[-> ->]|[-> ->]]]; [by apply (IH a)|done|done].
  - rewrite (conflicts_schedule_exams _ _ _ _ _ _ _ Hperm Hrun). apply IH.
Qed.

Lemma reachable_square : reachable_distinct square.
Proof. unfold square. repeat (constructor; [done|]). constructor. Qed.

Lemma reachable_self_loop : reachable self_loop.
Proof. unfold self_loop. repeat constructor. Qed.

Lemma reachable_lone_course : reachable lone_course.
Proof. unfold lone_course. repeat constructor. Qed.

(** ** Properties of the operations *)

(** C1, as stated, fails: [add_conflict] called on a course and itself
    returns normally instead of raising [InvalidConflict], and the course ends
    up in its own conflict set. *)
Lemma add_conflict_self_returns :
  call_add_conflict "A" "A" init ≠ Raised InvalidConflict ∧
  conflicts (add_conflict "A" "A" init) "A" "A".
Proof.
  split; [done|]. rewrite conflicts_add_conflict. auto.
Qed.

(** C1 (amended): for every course [a] and every state, the scheduler's
    [add_conflict(a, a)] returns without error, records [a] in its own
    conflict set and registers [a]; the rejection of a self-conflict is done
    by the handler of the user interface, which answers with a warning and
    leaves the scheduler untouched. *)
Theorem add_conflict_self (a : string) (s : ExamScheduler) :
  call_add_conflict a a s = Returned (add_conflict a a s) ∧
  conflicts (add_conflict a a s) a a ∧
  a ∈ courses (add_conflict a a s) ∧
  (ui_add_conflict a a s).2 = s ∧
  ∃ message, (ui_add_conflict a a s).1 = showwarning "Input Error" message.
Proof.
  split; [done|]. split; [rewrite conflicts_add_conflict; auto|].
  split; [unfold add_conflict; simpl; set_solver|].
  unfold ui_add_conflict. case_decide; [eauto|].
  rewrite decide_True by done. eauto.
Qed.

(** C5, as stated, fails on irreflexivity: one call of [add_conflict] on
    twice the same course leads to a state where the course conflicts with
    itself. *)
Lemma self_loop_not_irreflexive :
  reachable self_loop ∧ ¬ graph_irreflexive self_loop.
Proof.
  split; [apply reachable_self_loop|]. intros H. apply (H "A").
  unfold self_loop. rewrite conflicts_add_conflict. auto.
Qed.

(** C5 (amended): in every state reached through [add_course],
    [remove_course], [add_conflict] and [schedule_exams] the conflict relation
    is symmetric, and right after [add_conflict(a, b)] each of [a], [b] lists
    the other; no course is in its own conflict set as long as [add_conflict]
    has only been called on two different courses. *)
Theorem conflict_relation_invariant (s : ExamScheduler) :
  reachable s →
  graph_symmetric s ∧
  (∀ a b, conflicts (add_conflict a b s) a b ∧ conflicts (add_conflict a b s) b a) ∧
  (reachable_distinct s → graph_irreflexive s).
Proof.
  intros Hs. split; [by apply reachable_symmetric|]. split.
  - intros a b. rewrite !conflicts_add_conflict. auto.
  - apply reachable_distinct_irreflexive.
Qed.

Lemma conflict_relation_invariant_witness :
  graph_symmetric square ∧ conflicts (add_conflict "A" "C" square) "C" "A" ∧
  graph_irreflexive square.
Proof.
  destruct (conflict_relation_invariant square
              (reachable_distinct_reachable _ reachable_square)) as (H1 & H2 & H3).
  split; [exact H1|]. split; [apply (H2 "A" "C")|]. apply H3, reachable_square.
Defined.

(** C8: after [remove_course(x)], [x] is no longer registered, has no entry
    in the mapping and is in no conflict set, the other courses and the
    conflicts among them being kept; when [x] was not registered the state is
    unchanged. *)
Theorem remove_course_spec (x : string) (s : ExamScheduler) :
  reachable s →
  (courses (remove_course x s) = courses s ∖ {[x]}) ∧
  (x ∉ courses (remove_course x s)) ∧
  graph (remove_course x s) !! x = None ∧
  (∀ y, ¬ conflicts (remove_course x s) y x ∧ ¬ conflicts (remove_course x s) x y) ∧
  (∀ a b, a ≠ x → b ≠ x →
     (conflicts (remove_course x s) a b ↔ conflicts s a b)) ∧
  (x ∉ courses s → remove_course x s = s).
Proof.
  intros Hs. destruct (reachable_closed s Hs) as [Hkeys Hedges].
  destruct (decide (x ∈ courses s)) as [Hx|Hx].
  - split; [unfold remove_course; by rewrite decide_True|].
    split; [unfold remove_course; rewrite decide_True by done; simpl; set_solver|].
    split.
    { unfold remove_course. rewrite decide_True by done. simpl.
      by rewrite lookup_fmap, lookup_delete_eq. }
    split; [intros y; rewrite !conflicts_remove_course by done; tauto|].
    split; [intros a b ? ?; rewrite conflicts_remove_course by done; tauto|done].
  - rewrite remove_course_absent by done.
    split; [set_solver|]. split; [done|]. split.
    { destruct (graph s !! x) eqn:E; [|done]. exfalso. apply Hx, Hkeys. by rewrite E. }
    split; [|done].
    intros y. split; intros Hc; apply Hedges in Hc; tauto.
Qed.

Lemma remove_course_spec_witness :
  (courses (remove_course "A" square) = courses square ∖ {["A"]}) ∧
  ("A" ∉ courses (remove_course "A" square)) ∧
  graph (remove_course "A" square) !! "A" = None ∧
  (∀ y, ¬ conflicts (remove_course "A" square) y "A" ∧
        ¬ conflicts (remove_course "A" square) "A" y) ∧
  (∀ a b, a ≠ "A" → b ≠ "A" →
     (conflicts (remove_course "A" square) a b ↔ conflicts square a b)) ∧
  ("A" ∉ courses square → remove_course "A" square = square).
Proof.
  apply (remove_course_spec "A" square).
  apply reachable_distinct_reachable, reachable_square.
Defined.

(** ** Properties of [schedule_exams] *)

(** C9: on a scheduler without courses [schedule_exams] returns the empty
    assignment, without an error and whatever the fuel. *)
Theorem schedule_exams_empty (fuel : nat) (enum : list string) (s : ExamScheduler) :
  courses s = ∅ → schedule_exams fuel enum s = Some (s, ∅).
Proof. intros H. unfold schedule_exams. by rewrite decide_True. Qed.

Lemma schedule_exams_empty_witness : schedule_exams 0 [] init = Some (init, ∅).
Proof. apply (schedule_exams_empty 0 [] init). reflexivity. Defined.

(** C6: [schedule_exams] terminates on every state, for every order in which
    the course set is enumerated: fuel equal to the number of courses is
    enough for every slot search to end, and the returned assignment gives a
    slot to exactly the registered courses. *)
Theorem schedule_exams_total (fuel : nat) (enum : list string) (s : ExamScheduler) :
  enum ≡ₚ elements (courses s) →
  size (courses s) ≤ fuel →
  ∃ s' asg, schedule_exams fuel enum s = Some (s', asg) ∧ dom asg = courses s.
Proof.
  intros Hperm Hfuel.
  destruct (schedule_exams_enough fuel enum s Hperm Hfuel) as [[s' asg] Hrun].
  exists s', asg. split; [done|].
  destruct (schedule_exams_run _ _ _ _ _ Hperm Hrun) as (_ & _ & st & Hinv & ->).
  apply (inv_dom _ _ _ Hinv).
Qed.

Lemma schedule_exams_total_witness :
  ∃ s' asg, schedule_exams 4 (elements (courses square)) square = Some (s', asg) ∧
            dom asg = courses square.
Proof.
  apply (schedule_exams_total 4 (elements (courses square)) square).
  - reflexivity.
  - vm_compute. lia.
Defined.

(** C3: in the assignment returned by [schedule_exams] no slot holds more
    than two courses. *)
Theorem schedule_exams_capacity (fuel : nat) (enum : list string)
    (s s' : ExamScheduler) (asg : gmap string nat) :
  enum ≡ₚ elements (courses s) →
  schedule_exams fuel enum s = Some (s', asg) →
  ∀ slot, occupancy asg slot ≤ 2.
Proof.
  intros Hperm Hrun.
  destruct (schedule_exams_run _ _ _ _ _ Hperm Hrun) as (_ & _ & st & Hinv & ->).
  apply (inv_capacity _ _ _ Hinv).
Qed.

(** C10: the slots of the returned assignment are 1, 2, ... without a gap:
    every slot in use is at least 1 and every slot below it holds a course. *)
Theorem schedule_exams_contiguous (fuel : nat) (enum : list string)
    (s s' : ExamScheduler) (asg : gmap string nat) :
  enum ≡ₚ elements (courses s) →
  schedule_exams fuel enum s = Some (s', asg) →
  ∀ c slot, asg !! c = Some slot →
    1 ≤ slot ∧ ∀ t, 1 ≤ t < slot → ∃ c', asg !! c' = Some t.
Proof.
  intros Hperm Hrun.
  destruct (schedule_exams_run _ _ _ _ _ Hperm Hrun) as (_ & _ & st & Hinv & ->).
  intros c slot Hc. split.
  - by apply (inv_positive _ _ _ Hinv c).
  - intros t Ht. by apply (inv_contiguous _ _ _ Hinv c slot).
Qed.

(** C2, as stated, fails where a course conflicts with itself: the pair made
    of that course twice is in conflict and has one slot. *)
Lemma self_loop_same_slot :
  reachable self_loop ∧
  ["A"] ≡ₚ elements (courses self_loop) ∧
  schedule_exams 1 ["A"] self_loop = Some (self_loop, {["A" := 1]}) ∧
  conflicts self_loop "A" "A" ∧
  ¬ conflict_free self_loop {["A" := 1]}.
Proof.
  assert (conflicts self_loop "A" "A") as Hconf.
  { unfold self_loop. rewrite conflicts_add_conflict. auto. }
  split; [apply reachable_self_loop|]. split; [reflexivity|].
  split; [vm_compute; reflexivity|]. split; [done|].
  intros Hfree. by apply (Hfree "A" "A").
Qed.

(** C2 (amended): in every reachable state, two different courses in
    conflict both receive a slot from [schedule_exams], and the two slots
    differ. *)
Theorem schedule_exams_conflicts (fuel : nat) (enum : list string)
    (s s' : ExamScheduler) (asg : gmap string nat) :
  reachable s →
  enum ≡ₚ elements (courses s) →
  schedule_exams fuel enum s = Some (s', asg) →
  ∀ a b, a ≠ b → conflicts s a b →
    ∃ ka kb, asg !! a = Some ka ∧ asg !! b = Some kb ∧ ka ≠ kb.
Proof.
  intros Hs Hperm Hrun a b Hab Hconf.
  destruct (schedule_exams_run _ _ _ _ _ Hperm Hrun) as (_ & _ & st & Hinv & ->).
  destruct (reachable_closed s Hs) as [_ Hedges].
  destruct (Hedges a b Hconf) as [Ha Hb].
  rewrite <- (inv_dom _ _ _ Hinv) in Ha, Hb.
  apply elem_of_dom in Ha as [ka Hka]. apply elem_of_dom in Hb as [kb Hkb].
  exists ka, kb. split; [done|]. split; [done|].
  apply (inv_conflict _ _ _ Hinv (reachable_symmetric s Hs) a b); done.
Qed.


Lemma square_schedule_elements :
  schedule_exams 4 (elements (courses square)) square = Some (square, slots_AC).
Proof. vm_compute. reflexivity. Qed.

Lemma schedule_exams_capacity_witness : occupancy slots_AC 1 ≤ 2.
Proof.
  apply (schedule_exams_capacity 4 (elements (courses square)) square square slots_AC).
  - reflexivity.
  - vm_compute. reflexivity.
Defined.

Lemma schedule_exams_contiguous_witness :
  1 ≤ 2 ∧ ∃ c', slots_AC !! c' = Some 1.
Proof.
  destruct (schedule_exams_contiguous 4 (elements (courses square)) square square
              slots_AC (reflexivity _) square_schedule_elements "B" 2 eq_refl)
    as [Hpos Hbelow].
  split; [exact Hpos|]. apply (Hbelow 1). lia.
Defined.

Lemma schedule_exams_conflicts_witness :
  ∃ ka kb, slots_AC !! "A" = Some ka ∧ slots_AC !! "B" = Some kb ∧ ka ≠ kb.
Proof.
  apply (schedule_exams_conflicts 4 (elements (courses square)) square square slots_AC).
  - apply reachable_distinct_reachable, reachable_square.
  - reflexivity.
  - vm_compute. reflexivity.
  - done.
  - unfold square. rewrite !conflicts_add_conflict. auto 10.
Defined.

(** C7, as stated, fails: a registered course without conflicts has no entry
    in the mapping before the call and an empty one after it. *)
Lemma schedule_exams_touches_graph :
  reachable lone_course ∧
  ["X"] ≡ₚ elements (courses lone_course) ∧
  schedule_exams 1 ["X"] lone_course = Some (lone_course_scheduled, {["X" := 1]}) ∧
  graph lone_course !! "X" = None ∧
  graph lone_course_scheduled !! "X" = Some ∅ ∧
  lone_course_scheduled ≠ lone_course.
Proof.
  split; [apply reachable_lone_course|]. split; [reflexivity|].
  split; [vm_compute; reflexivity|]. split; [done|]. split; [done|].
  intros H. apply (f_equal (λ s, graph s !! "X")) in H. discriminate.
Qed.

(** C7 (amended): [schedule_exams] leaves the course set and the conflict
    set of every course as they were; in the mapping it keeps every entry and
    only adds an empty conflict set for each registered course that had no
    entry, so that the state is untouched when every registered course has an
    entry. *)
Theorem schedule_exams_frame (fuel : nat) (enum : list string)
    (s s' : ExamScheduler) (asg : gmap string nat) :
  enum ≡ₚ elements (courses s) →
  schedule_exams fuel enum s = Some (s', asg) →
  courses s' = courses s ∧
  (∀ c, neighbors (graph s') c = neighbors (graph s) c) ∧
  (∀ c, graph s' !! c =
        match graph s !! c with
        | Some nbrs => Some nbrs
        | None => if decide (c ∈ courses s) then Some ∅ else None
        end) ∧
  ((∀ c, c ∈ courses s → is_Some (graph s !! c)) → s' = s).
Proof.
  intros Hperm Hrun.
  destruct (schedule_exams_run _ _ _ _ _ Hperm Hrun) as (Hc & Hg & _).
  assert (∀ c, graph s' !! c =
        match graph s !! c with
        | Some nbrs => Some nbrs
        | None => if decide (c ∈ courses s) then Some ∅ else None
        end) as Hlookup.
  { intros c. rewrite Hg. unfold touched. destruct (graph s !! c); [done|].
    destruct (decide (c ∈ courses s)) as [Hin|Hin].
    - rewrite decide_True; [done|]. by apply elem_of_elements.
    - rewrite decide_False; [done|]. by rewrite elem_of_elements. }
  split; [done|]. split; [intros c; by apply (touched_neighbors _ _ _ c Hg)|].
  split; [done|].
  intros Hall. destruct s as [g cs], s' as [g' cs']. simpl in *. subst cs'.
  f_equal. apply map_eq. intros c. rewrite Hlookup.
  destruct (g !! c) eqn:E; [done|]. case_decide as Hin; [|done].
  apply Hall in Hin as [? ?]. congruence.
Qed.

Lemma schedule_exams_frame_witness :
  courses lone_course_scheduled = courses lone_course ∧
  (∀ c, neighbors (graph lone_course_scheduled) c = neighbors (graph lone_course) c) ∧
  (∀ c, graph lone_course_scheduled !! c =
        match graph lone_course !! c with
        | Some nbrs => Some nbrs
        | None => if decide (c ∈ courses lone_course) then Some ∅ else None
        end) ∧
  ((∀ c, c ∈ courses lone_course → is_Some (graph lone_course !! c)) →
   lone_course_scheduled = lone_course).
Proof.
  apply (schedule_exams_frame 1 ["X"] lone_course lone_course_scheduled {["X" := 1]}).
  - reflexivity.
  - vm_compute. reflexivity.
Defined.

(** C4, as stated, fails: the four courses have the same degree, so the
    order of the loop is the order in which the course set is enumerated;
    when that order starts with B the result is another assignment. *)
Lemma square_order_dependent :
  ["B"; "A"; "C"; "D"] ≡ₚ elements (courses square) ∧
  schedule_exams 4 ["B"; "A"; "C"; "D"] square = Some (square, slots_BD) ∧
  slots_BD ≠ slots_AC.
Proof.
  split; [|split].
  - apply permutations_Permutation. vm_compute. repeat constructor.
  - vm_compute. reflexivity.
  - intros H. apply (f_equal (λ m : gmap string nat, m !! "A")) in H.
    vm_compute in H. discriminate.
Qed.

Lemma square_schedule_4 (enum : list string) :
  enum ≡ₚ elements (courses square) →
  schedule_exams 4 enum square =
  Some (square,
        if decide (head enum = Some "A" ∨ head enum = Some "C")
        then slots_AC else slots_BD).
Proof.
  intros Hperm. symmetry in Hperm. apply permutations_Permutation in Hperm.
  vm_compute in Hperm.
  repeat (apply elem_of_cons in Hperm as [->|Hperm]; [vm_compute; reflexivity|]).
  by apply elem_of_nil in Hperm.
Qed.

(** C4 (amended): on the scheduler holding A, B, C, D with the conflicts
    A-B, B-C, C-D, A-D, [schedule_exams] returns {A:1, B:2, C:1, D:2} when the
    enumeration of the course set starts with A or C, in particular for the
    order A, B, C, D, and {A:2, B:1, C:2, D:1} when it starts with B or D;
    either way two slots are used and the scheduler is left as it was. *)
Theorem schedule_exams_square (fuel : nat) (enum : list string) :
  enum ≡ₚ elements (courses square) →
  4 ≤ fuel →
  ∃ asg,
    schedule_exams fuel enum square = Some (square, asg) ∧
    asg = (if decide (head enum = Some "A" ∨ head enum = Some "C")
           then slots_AC else slots_BD) ∧
    (enum = ["A"; "B"; "C"; "D"] → asg = slots_AC) ∧
    total_slots asg = 2.
Proof.
  intros Hperm Hfuel. eexists. split; [|split; [reflexivity|split]].
  - apply (schedule_exams_mono 4 fuel _ _ _ Hfuel). by apply square_schedule_4.
  - by intros ->.
  - case_decide; vm_compute; reflexivity.
Qed.

Lemma schedule_exams_square_witness :
  ∃ asg,
    schedule_exams 4 ["A"; "B"; "C"; "D"] square = Some (square, asg) ∧
    asg = (if decide (head ["A"; "B"; "C"; "D"] = Some "A" ∨
                      head ["A"; "B"; "C"; "D"] = Some "C")
           then slots_AC else slots_BD) ∧
    (["A"; "B"; "C"; "D"] = ["A"; "B"; "C"; "D"] → asg = slots_AC) ∧
    total_slots asg = 2.
Proof.
  apply (schedule_exams_square 4 ["A"; "B"; "C"; "D"]).
  - apply permutations_Permutation. vm_compute. repeat constructor.
  - lia.
Defined.

(** ** How the operations compose *)

Lemma graph_add_lookup g c x c' :
  graph_add g c x !! c' =
  if decide (c = c') then Some (neighbors g c ∪ {[x]}) else g !! c'.
Proof.
  unfold graph_add.
  pose proof (graph_getitem_snd g c) as Hns.
  pose proof (graph_getitem_lookup g c c') as Hg1.
  destruct (graph_getitem g c) as [g1 ns]; simpl in *. subst ns.
  rewrite lookup_insert. destruct (decide (c = c')) as [->|Hne]; [done|].
  rewrite Hg1. by destruct (g !! c').
Qed.

Lemma add_conflict_lookup a b s c :
  graph (add_conflict a b s) !! c =
  if decide (c = a ∨ c = b) then
    Some (neighbors (graph s) c ∪ (if decide (c = a) then {[b]} else ∅)
                               ∪ (if decide (c = b) then {[a]} else ∅))
  else graph s !! c.
Proof.
  unfold add_conflict. simpl. rewrite graph_add_lookup.
  destruct (decide (b = c)) as [->|Hb].
  - rewrite decide_True by auto. f_equal.
    rewrite graph_add_neighbors. rewrite (decide_True (P := c = c)) by done.
    destruct (decide (a = c)) as [->|Ha].
    + rewrite decide_True by done. set_solver.
    + rewrite (decide_False (P := c = a)) by done. set_solver.
  - rewrite graph_add_lookup. destruct (decide (a = c)) as [->|Ha].
    + rewrite decide_True by auto. f_equal.
      rewrite (decide_True (P := c = c)) by done.
      rewrite (decide_False (P := c = b)) by done. set_solver.
    + rewrite decide_False; [done|]. intros [?|?]; congruence.
Qed.


(** [add_conflict] does not depend on the order of its two arguments. *)
Theorem add_conflict_comm (a b : string) (s : ExamScheduler) :
  add_conflict a b s = add_conflict b a s.
Proof.
  assert (graph (add_conflict a b s) = graph (add_conflict b a s)) as Hg.
  { apply map_eq. intros c. rewrite !add_conflict_lookup.
    destruct (decide (c = a)), (decide (c = b)); subst;
      repeat (rewrite ?decide_True, ?decide_False by tauto);
      try done; f_equal; set_solver. }
  unfold add_conflict in *. simpl in *. rewrite Hg. f_equal. set_solver.
Qed.

(** Declaring a conflict a second time changes nothing. *)
Theorem add_conflict_idempotent (a b : string) (s : ExamScheduler) :
  add_conflict a b (add_conflict a b s) = add_conflict a b s.
Proof.
  assert (graph (add_conflict a b (add_conflict a b s)) = graph (add_conflict a b s))
    as Hg.
  { apply map_eq. intros c. rewrite add_conflict_lookup.
    destruct (decide (c = a ∨ c = b)) as [Hc|Hc]; [|done].
    unfold neighbors. rewrite add_conflict_lookup, decide_True by done. simpl.
    f_equal. destruct (decide (c = a)), (decide (c = b)); set_solver. }
  unfold add_conflict in *. simpl in *. rewrite Hg. f_equal. set_solver.
Qed.

(** [add_conflict] registers its two courses, whether they were known or
    not, keeps every other course, and adds the two directions of the one
    edge and no other. *)
Theorem add_conflict_spec (a b : string) (s : ExamScheduler) :
  courses (add_conflict a b s) = courses s ∪ {[a; b]} ∧
  (∀ x y, conflicts (add_conflict a b s) x y ↔
          conflicts s x y ∨ (x = a ∧ y = b) ∨ (x = b ∧ y = a)) ∧
  (∀ x, x ≠ a → x ≠ b → graph (add_conflict a b s) !! x = graph s !! x).
Proof.
  split; [done|]. split; [apply conflicts_add_conflict|].
  intros x Ha Hb. rewrite add_conflict_lookup, decide_False; [done|tauto].
Qed.

(** Removing twice is removing once, and two removals can be swapped. *)
Theorem remove_course_idempotent (x : string) (s : ExamScheduler) :
  remove_course x (remove_course x s) = remove_course x s.
Proof.
  destruct (decide (x ∈ courses s)) as [Hx|Hx].
  - apply remove_course_absent. unfold remove_course.
    rewrite decide_True by done. simpl. set_solver.
  - by rewrite !(remove_course_absent x s).
Qed.

Lemma remove_course_present x s :
  x ∈ courses s →
  remove_course x s =
  mkScheduler ((λ nbrs, nbrs ∖ {[x]}) <$> delete x (graph s)) (courses s ∖ {[x]}).
Proof. intros Hx. unfold remove_course. by rewrite decide_True. Qed.

Theorem remove_course_comm (x y : string) (s : ExamScheduler) :
  remove_course x (remove_course y s) = remove_course y (remove_course x s).
Proof.
  destruct (decide (x = y)) as [->|Hxy]; [done|].
  destruct (decide (x ∈ courses s)) as [Hx|Hx], (decide (y ∈ courses s)) as [Hy|Hy].
  - rewrite (remove_course_present y s), (remove_course_present x s) by done.
    rewrite !remove_course_present by (simpl; set_solver). simpl. f_equal.
    + apply map_eq. intros c.
      rewrite !lookup_fmap, !lookup_delete, !lookup_fmap, !lookup_delete.
      repeat case_decide; try done.
      destruct (graph s !! c); simpl; [|done]. f_equal. set_solver.
    + set_solver.
  - rewrite (remove_course_absent y s) by done.
    rewrite (remove_course_absent y); [done|].
    rewrite remove_course_present by done. simpl. set_solver.
  - rewrite (remove_course_absent x s) by done.
    rewrite (remove_course_absent x); [done|].
    rewrite remove_course_present by done. simpl. set_solver.
  - by rewrite (remove_course_absent y s), (remove_course_absent x s), (remove_course_absent y s).
Qed.

(** Registering a course that was not there and removing it again gives the
    state back. *)
Theorem remove_add_course (c : string) (s : ExamScheduler) :
  reachable s → c ∉ courses s → remove_course c (add_course c s) = s.
Proof.
  intros Hs Hc. destruct (reachable_closed s Hs) as [Hkeys Hedges].
  rewrite remove_course_present by (simpl; set_solver).
  destruct s as [g cs]. simpl in *. f_equal; [|set_solver].
  apply map_eq. intros x. rewrite lookup_fmap, lookup_delete.
  case_decide as Hx; subst.
  - destruct (g !! x) eqn:E; [|done]. exfalso. apply Hc, Hkeys. by rewrite E.
  - destruct (g !! x) as [ns|] eqn:E; simpl; [|done]. f_equal.
    apply set_eq. intros y. rewrite elem_of_difference, elem_of_singleton.
    split; [tauto|]. intros Hy. split; [done|]. intros ->.
    apply Hc. apply (Hedges x c). unfold conflicts, neighbors. simpl. by rewrite E.
Qed.

Lemma remove_add_course_witness :
  remove_course "E" (add_course "E" square) = square.
Proof.
  apply (remove_add_course "E" square).
  - apply reachable_distinct_reachable, reachable_square.
  - vm_compute. intros H. discriminate H.
Defined.

(** ** The order of the loop *)

Lemma sort_keys_degrees enum g :
  (sort_keys enum g).2 = (λ c, (c, degree g c)) <$> enum.
Proof.
  revert g. induction enum as [|c rest IH]; intros g; simpl; [done|].
  pose proof (graph_getitem_snd g c) as Hns.
  pose proof (graph_getitem_neighbors g c) as Hg1.
  destruct (graph_getitem g c) as [g1 ns]; simpl in *. subst ns.
  specialize (IH g1). destruct (sort_keys rest g1) as [g2 ks]; simpl in *.
  rewrite IH. f_equal. apply list_fmap_ext. intros _ x _.
  unfold degree. by rewrite Hg1.
Qed.

Lemma insert_desc_sorted x l :
  StronglySorted (λ p q : string * nat, q.2 ≤ p.2) l →
  StronglySorted (λ p q : string * nat, q.2 ≤ p.2) (insert_desc x l).
Proof.
  induction 1 as [|y l Hl IH Hy]; simpl.
  - repeat constructor.
  - case_decide as Hlt.
    + constructor; [done|]. rewrite insert_desc_perm. constructor; [lia|done].
    + constructor; [by constructor|]. constructor; [lia|].
      eapply Forall_impl; [exact Hy|]. simpl. intros q Hq. lia.
Qed.

Lemma sorted_desc_sorted l :
  StronglySorted (λ p q : string * nat, q.2 ≤ p.2) (sorted_desc l).
Proof.
  induction l as [|x l IH]; simpl; [constructor|]. by apply insert_desc_sorted.
Qed.

Lemma insert_desc_filter d x l :
  filter (λ p : string * nat, p.2 = d) (insert_desc x l) =
  filter (λ p : string * nat, p.2 = d) (x :: l).
Proof.
  induction l as [|y l IH]; simpl; [done|].
  case_decide as Hlt; [|done].
  rewrite (filter_cons _ y), IH, !(filter_cons _ x), !(filter_cons _ y).
  repeat case_decide; try done. simpl in *. lia.
Qed.

Lemma sorted_desc_filter d l :
  filter (λ p : string * nat, p.2 = d) (sorted_desc l) =
  filter (λ p : string * nat, p.2 = d) l.
Proof.
  induction l as [|x l IH]; simpl; [done|].
  rewrite insert_desc_filter, !(filter_cons _ x), IH. done.
Qed.

Lemma keyed_sorted (f : string → nat) (l : list (string * nat)) :
  Forall (λ p, p.2 = f p.1) l →
  StronglySorted (λ p q : string * nat, q.2 ≤ p.2) l →
  StronglySorted (λ c c', f c' ≤ f c) l.*1.
Proof.
  intros Hkey. induction 1 as [|p l Hl IH Hp]; simpl; [constructor|].
  apply Forall_cons in Hkey as [Hp1 Hkey]. constructor; [by apply IH|].
  apply Forall_fmap. apply Forall_forall. intros q Hq. simpl.
  rewrite Forall_forall in Hp, Hkey. rewrite <- Hp1, <- (Hkey q Hq). by apply Hp.
Qed.

Lemma keyed_filter (f : string → nat) d (l : list (string * nat)) :
  Forall (λ p, p.2 = f p.1) l →
  filter (λ c, f c = d) l.*1 = (filter (λ p : string * nat, p.2 = d) l).*1.
Proof.
  induction 1 as [|p l Hp Hl IH]; [done|].
  rewrite fmap_cons, (filter_cons _ (p.1)), (filter_cons _ p), IH.
  repeat case_decide; try done; congruence.
Qed.

Lemma sort_keys_keyed enum g :
  Forall (λ p : string * nat, p.2 = degree g p.1) (sort_keys enum g).2.
Proof.
  rewrite sort_keys_degrees. apply Forall_fmap, Forall_forall. by intros c _.
Qed.

(** The loop of [schedule_exams] visits every course once, a course of
    higher degree before a course of lower degree. *)
Theorem sorted_courses_by_degree (enum : list string) (g : gmap string (gset string)) :
  sorted_courses enum g ≡ₚ enum ∧
  StronglySorted (λ c c', degree g c' ≤ degree g c) (sorted_courses enum g).
Proof.
  split; [apply sorted_courses_perm|]. unfold sorted_courses.
  apply keyed_sorted; [|apply sorted_desc_sorted].
  rewrite sorted_desc_perm. apply sort_keys_keyed.
Qed.

Lemma sorted_courses_filter (enum : list string) (g : gmap string (gset string))
    (d : nat) :
  filter (λ c, degree g c = d) (sorted_courses enum g) =
  filter (λ c, degree g c = d) enum.
Proof.
  unfold sorted_courses. rewrite (keyed_filter (degree g)).
  - rewrite sorted_desc_filter, <- (keyed_filter (degree g)) by apply sort_keys_keyed.
    by rewrite sort_keys_names.
  - rewrite sorted_desc_perm. apply sort_keys_keyed.
Qed.

(** The sort is stable: courses of one degree are visited in the order in
    which the course set enumerates them. *)
Theorem sorted_courses_stable (enum : list string) (g : gmap string (gset string))
    (d : nat) :
  filter (λ c, degree g c = d) (sorted_courses enum g) =
  filter (λ c, degree g c = d) enum.
Proof. apply sorted_courses_filter. Qed.

(** ** Counting slots *)

Lemma occupancy_split (m : gmap string nat) k :
  size m = occupancy m k + size (filter (λ p : string * nat, p.2 ≠ k) m).
Proof.
  unfold occupancy.
  rewrite <- (map_filter_union_complement (λ p : string * nat, p.2 = k) m) at 1.
  apply map_size_disj_union, map_disjoint_filter_complement.
Qed.

Lemma occupancy_filter_ne (m : gmap string nat) k k' :
  occupancy (filter (λ p : string * nat, p.2 ≠ k) m) k' =
  if decide (k = k') then 0 else occupancy m k'.
Proof.
  unfold occupancy. rewrite map_filter_filter. case_decide as Hk.
  - apply map_size_empty_iff, map_eq. intros i. rewrite lookup_empty.
    apply map_lookup_filter_None. right. intros x _ [? ?]. simpl in *. congruence.
  - f_equal. apply map_filter_ext. intros i x _. simpl. split; [tauto|].
    intros ->. split; [done|]. congruence.
Qed.

(** When each slot of [X] holds at least [d] courses, there are at least
    [d] courses per slot of [X]. *)
Lemma slots_lower d (X : gset nat) :
  ∀ m : gmap string nat, (∀ k, k ∈ X → d ≤ occupancy m k) → d * size X ≤ size m.
Proof.
  induction X as [|k X Hk IH] using set_ind_L; intros m Hocc.
  - rewrite size_empty. lia.
  - rewrite size_union, size_singleton by set_solver.
    rewrite (occupancy_split m k).
    specialize (IH (filter (λ p : string * nat, p.2 ≠ k) m)).
    assert (d ≤ occupancy m k) by (apply Hocc; set_solver).
    assert (d * size X ≤ size (filter (λ p : string * nat, p.2 ≠ k) m)); [|lia].
    apply IH. intros k' Hk'. rewrite occupancy_filter_ne.
    rewrite decide_False by set_solver. apply Hocc. set_solver.
Qed.

(** When all slots in use are in [X] and none holds more than [d] courses,
    there are at most [d] courses per slot of [X]. *)
Lemma slots_upper d (X : gset nat) :
  ∀ m : gmap string nat,
    (∀ i k, m !! i = Some k → k ∈ X) → (∀ k, occupancy m k ≤ d) →
    size m ≤ d * size X.
Proof.
  induction X as [|k X Hk IH] using set_ind_L; intros m Himg Hocc.
  - rewrite size_empty. assert (m = ∅) as ->; [|rewrite map_size_empty; lia].
    apply map_eq. intros i. rewrite lookup_empty.
    destruct (m !! i) eqn:E; [|done]. apply Himg in E. set_solver.
  - rewrite size_union, size_singleton by set_solver.
    rewrite (occupancy_split m k).
    specialize (IH (filter (λ p : string * nat, p.2 ≠ k) m)).
    pose proof (Hocc k).
    assert (size (filter (λ p : string * nat, p.2 ≠ k) m) ≤ d * size X); [|lia].
    apply IH.
    + intros i k' [Hi Hne]%map_lookup_filter_Some. simpl in Hne.
      apply Himg in Hi. set_solver.
    + intros k'. rewrite occupancy_filter_ne. case_decide; [lia|apply Hocc].
Qed.

(** A set of slots without a gap from 1 on is the set of the first slots. *)
Lemma gapless_set_seq (X : gset nat) :
  (∀ k, k ∈ X → 1 ≤ k ∧ ∀ t, 1 ≤ t < k → t ∈ X) → X = set_seq 1 (size X).
Proof.
  intros Hgap. apply set_subseteq_size_eq.
  - intros k Hk. apply elem_of_set_seq. destruct (Hgap k Hk) as [Hpos Hbelow].
    split; [done|].
    assert (set_seq 1 k ⊆ X) as Hsub.
    { intros t Ht%elem_of_set_seq. destruct (decide (t = k)) as [->|]; [done|].
      apply Hbelow. lia. }
    apply subseteq_size in Hsub. rewrite size_set_seq in Hsub. lia.
  - by rewrite size_set_seq.
Qed.

(** The slots of the returned assignment are exactly 1, ..., [total_slots];
    there are at most as many slots as courses and at least half as many. *)
Theorem schedule_exams_slot_count (fuel : nat) (enum : list string)
    (s s' : ExamScheduler) (asg : gmap string nat) :
  enum ≡ₚ elements (courses s) →
  schedule_exams fuel enum s = Some (s', asg) →
  map_img asg = (set_seq 1 (total_slots asg) : gset nat) ∧
  total_slots asg ≤ size (courses s) ∧
  size (courses s) ≤ 2 * total_slots asg.
Proof.
  intros Hperm Hrun.
  destruct (schedule_exams_run _ _ _ _ _ Hperm Hrun) as (_ & _ & st & Hinv & ->).
  assert (size (courses s) = size (time_slots st)) as ->.
  { by rewrite <- (inv_dom _ _ _ Hinv), size_dom. }
  unfold total_slots. split; [|split].
  - apply gapless_set_seq. intros k [c Hc]%elem_of_map_img. split.
    + by apply (inv_positive _ _ _ Hinv c).
    + intros t Ht. apply elem_of_map_img.
      by apply (inv_contiguous _ _ _ Hinv c k).
  - pose proof (slots_lower 1 (map_img (time_slots st)) (time_slots st)) as Hlow.
    rewrite Nat.mul_1_l in Hlow. apply Hlow.
    intros k [c Hc]%elem_of_map_img. by apply (occupancy_pos _ c).
  - apply slots_upper; [|apply (inv_capacity _ _ _ Hinv)].
    intros i k Hi. apply elem_of_map_img. eauto.
Qed.

Lemma schedule_exams_slot_count_witness :
  map_img slots_AC = (set_seq 1 (total_slots slots_AC) : gset nat) ∧
  total_slots slots_AC ≤ size (courses square) ∧
  size (courses square) ≤ 2 * total_slots slots_AC.
Proof.
  apply (schedule_exams_slot_count 4 (elements (courses square)) square square).
  - reflexivity.
  - vm_compute. reflexivity.
Defined.

(** ** How far up a course can land *)

Lemma size_list_to_set_le (l : list nat) : size (list_to_set l : gset nat) ≤ length l.
Proof.
  induction l as [|x l IH].
  - by rewrite list_to_set_nil, size_empty.
  - rewrite list_to_set_cons, size_union_alt, size_singleton.
    assert (size (list_to_set l ∖ {[x]} : gset nat) ≤ size (list_to_set l : gset nat))
      by (apply subseteq_size; set_solver).
    simpl. lia.
Qed.

Lemma length_omap_le {A B} (f : A → option B) (l : list A) :
  length (omap f l) ≤ length l.
Proof.
  induction l as [|x l IH]; [done|]. csimpl. destruct (f x); simpl in *; lia.
Qed.

Lemma assigned_slots_size nbrs ts : size (assigned_slots_of nbrs ts) ≤ size nbrs.
Proof.
  unfold assigned_slots_of, set_omap.
  etrans; [apply size_list_to_set_le|]. apply length_omap_le.
Qed.

Lemma size_union_le (X Y : gset nat) : size (X ∪ Y) ≤ size X + size Y.
Proof.
  rewrite size_union_alt.
  assert (size (Y ∖ X) ≤ size Y) by (apply subseteq_size; set_solver). lia.
Qed.

(** The slot found lies above at most one slot per conflicting course
    already placed and one slot per two courses already placed. *)
Lemma find_slot_bound g0 D st fuel nbrs k :
  loop_inv g0 D st →
  find_slot fuel (assigned_slots_of nbrs (time_slots st)) (slot_counts st) 1 = Some k →
  2 * k ≤ 2 * size nbrs + size D + 2.
Proof.
  intros Hinv (Hk1 & _ & Hbelow)%find_slot_spec.
  set (A := assigned_slots_of nbrs (time_slots st)) in *.
  set (F := filter (λ t, 2 ≤ occupancy (time_slots st) t) (set_seq 1 (k - 1) : gset nat)).
  assert (set_seq 1 (k - 1) ⊆ A ∪ F) as Hsub.
  { intros t Ht. pose proof Ht as Ht'%elem_of_set_seq.
    destruct (Hbelow t) as [HA|HF]; [lia|set_solver|].
    apply elem_of_union_r, elem_of_filter. split; [|done].
    by rewrite <- (inv_counts _ _ _ Hinv). }
  apply subseteq_size in Hsub. rewrite size_set_seq in Hsub.
  pose proof (size_union_le A F) as HAF.
  pose proof (assigned_slots_size nbrs (time_slots st)) as HA. fold A in HA.
  assert (2 * size F ≤ size (time_slots st)) as HF.
  { apply slots_lower. intros t Ht%elem_of_filter. tauto. }
  rewrite <- (size_dom (D:=gset string)), (inv_dom _ _ _ Hinv) in HF.
  lia.
Qed.

Lemma assign_course_bound g0 fuel D st c st' :
  loop_inv g0 D st → c ∉ D → slot_bound g0 D st →
  assign_course fuel st c = Some st' →
  slot_bound g0 ({[c]} ∪ D) st'.
Proof.
  intros Hinv HcD Hbound. unfold assign_course.
  pose proof (graph_getitem_snd (ls_graph st) c) as Hnb.
  destruct (graph_getitem (ls_graph st) c) as [g1 nbrs]; simpl in Hnb.
  rewrite (inv_graph _ _ _ Hinv) in Hnb. subst nbrs.
  destruct (find_slot fuel _ _ 1) as [k|] eqn:Hfind; [|done].
  intros [= <-]. intros x kx. simpl.
  rewrite size_union, size_singleton by set_solver.
  rewrite lookup_insert_Some. intros [[<- <-]|[_ Hx]].
  - pose proof (find_slot_bound g0 D st fuel _ k Hinv Hfind). unfold degree. lia.
  - pose proof (Hbound x kx Hx). lia.
Qed.

Lemma assign_all_bound g0 fuel cs D st st' :
  NoDup cs → (∀ c, c ∈ cs → c ∉ D) → loop_inv g0 D st → slot_bound g0 D st →
  assign_all fuel cs st = Some st' →
  slot_bound g0 (list_to_set cs ∪ D) st'.
Proof.
  revert D st. induction cs as [|c cs IH]; intros D st Hnd Hdisj Hinv Hb; simpl.
  - intros [= <-]. by rewrite (left_id_L ∅ (∪)).
  - destruct (assign_course fuel st c) as [st1|] eqn:Hstep; [|done]. simpl.
    intros Hrest. apply NoDup_cons in Hnd as [Hc Hnd].
    assert (c ∉ D) as HcD by (apply Hdisj, elem_of_cons; by left).
    replace ({[c]} ∪ list_to_set cs ∪ D) with (list_to_set cs ∪ ({[c]} ∪ D))
      by set_solver.
    apply (IH ({[c]} ∪ D) st1); [done| | | |done].
    + intros x Hx. pose proof (Hdisj x). set_solver.
    + by eapply assign_course_inv.
    + by eapply assign_course_bound.
Qed.

(** The loop of a call that goes past the early return, with the invariant
    its variables start from. *)
Lemma schedule_exams_loop fuel enum s s' asg :
  enum ≡ₚ elements (courses s) → courses s ≠ ∅ →
  schedule_exams fuel enum s = Some (s', asg) →
  ∃ st,
    assign_all fuel (sorted_courses enum (graph s))
      (mkLoop (sort_keys enum (graph s)).1 ∅ ∅) = Some st ∧
    asg = time_slots st ∧
    NoDup (sorted_courses enum (graph s)) ∧
    list_to_set (sorted_courses enum (graph s)) ∪ (∅ : gset string) = courses s ∧
    loop_inv (graph s) ∅ (mkLoop (sort_keys enum (graph s)).1 ∅ ∅).
Proof.
  intros Hperm Hne. rewrite schedule_exams_unfold by done.
  destruct (assign_all _ _ _) as [st|] eqn:Hloop; [|done]. simpl.
  intros [= <- <-]. exists st.
  pose proof (sorted_courses_perm enum (graph s)) as Hsorted.
  split; [done|]. split; [done|]. split; [|split].
  - rewrite Hsorted, Hperm. apply NoDup_elements.
  - apply set_eq. intros c.
    rewrite elem_of_union, elem_of_list_to_set, Hsorted, Hperm, elem_of_elements.
    set_solver.
  - apply loop_inv_start. intros c.
    apply (touched_neighbors enum), sort_keys_graph.
Qed.

(** The greedy bound: a course lands at most in the slot numbered by its
    degree plus half the number of courses, rounded up. *)
Theorem schedule_exams_degree_bound (fuel : nat) (enum : list string)
    (s s' : ExamScheduler) (asg : gmap string nat) :
  enum ≡ₚ elements (courses s) →
  schedule_exams fuel enum s = Some (s', asg) →
  ∀ c slot, asg !! c = Some slot →
    2 * slot ≤ 2 * degree (graph s) c + size (courses s) + 1.
Proof.
  intros Hperm. destruct (decide (courses s = ∅)) as [Hempty|Hne].
  - unfold schedule_exams. rewrite decide_True by done. intros [= <- <-] c k Hc.
    by rewrite lookup_empty in Hc.
  - intros Hrun.
    destruct (schedule_exams_loop _ _ _ _ _ Hperm Hne Hrun)
      as (st & Hloop & -> & Hnd & Hset & Hinv).
    rewrite <- Hset.
    apply (assign_all_bound (graph s) fuel _ ∅
             (mkLoop (sort_keys enum (graph s)).1 ∅ ∅) st Hnd);
      [set_solver|done| |done].
    intros c k Hc. simpl in Hc. by rewrite lookup_empty in Hc.
Qed.

Lemma schedule_exams_degree_bound_witness :
  2 * 2 ≤ 2 * degree (graph square) "B" + size (courses square) + 1.
Proof.
  apply (schedule_exams_degree_bound 4 (elements (courses square)) square square
           slots_AC).
  - reflexivity.
  - vm_compute. reflexivity.
  - reflexivity.
Defined.

(** ** Courses without conflicts *)

Lemma half_facts (j : nat) : j mod 2 < 2 ∧ j = 2 * (j / 2) + j mod 2.
Proof. split; [apply Nat.mod_upper_bound; lia|apply Nat.div_mod_eq]. Qed.

Lemma filter_all {A} (P : A → Prop) `{!∀ x, Decision (P x)} (l : list A) :
  Forall P l → filter P l = l.
Proof.
  induction 1 as [|x l Hx Hl IH]; [done|]. by rewrite filter_cons_True, IH.
Qed.

Lemma sorted_courses_no_conflicts enum g :
  (∀ c, neighbors g c = ∅) → sorted_courses enum g = enum.
Proof.
  intros Hno.
  assert (∀ l : list string, Forall (λ c, degree g c = 0) l) as Hall.
  { intros l. apply Forall_forall. intros c _. unfold degree.
    by rewrite Hno, size_empty. }
  rewrite <- (filter_all (λ c, degree g c = 0) (sorted_courses enum g)) by done.
  rewrite sorted_courses_filter. by apply filter_all.
Qed.

Lemma packed_start g : packed [] (mkLoop g ∅ ∅).
Proof.
  split; simpl.
  - intros i c Hc. by rewrite lookup_nil in Hc.
  - intros t. rewrite occupancy_empty. repeat case_decide; simpl in *; lia.
Qed.

Lemma assign_course_packed g0 fuel placed st c st' :
  (∀ x, neighbors g0 x = ∅) →
  loop_inv g0 (list_to_set placed) st → c ∉ placed → packed placed st →
  assign_course fuel st c = Some st' →
  packed (placed ++ [c]) st'.
Proof.
  intros Hno Hinv Hc [Hpos Hocc]. unfold assign_course.
  pose proof (graph_getitem_snd (ls_graph st) c) as Hnb.
  destruct (graph_getitem (ls_graph st) c) as [g1 nbrs]; simpl in Hnb.
  rewrite (inv_graph _ _ _ Hinv), Hno in Hnb. subst nbrs.
  destruct (find_slot fuel _ _ 1) as [k|] eqn:Hfind; [|done].
  intros [= <-].
  apply find_slot_spec in Hfind as (Hk1 & Hfree & Hbelow).
  assert (time_slots st !! c = None) as Hfresh.
  { apply not_elem_of_dom. rewrite (inv_dom _ _ _ Hinv).
    by rewrite elem_of_list_to_set. }
  assert (∀ t, slot_taken (assigned_slots_of ∅ (time_slots st)) (slot_counts st) t
             ↔ 1 ≤ t ≤ length placed / 2) as Htaken.
  { intros t. unfold slot_taken, assigned_slots_of.
    rewrite set_omap_empty, (inv_counts _ _ _ Hinv), Hocc.
    pose proof (half_facts (length placed)) as [? ?].
    repeat case_decide; set_solver by lia. }
  assert (k = length placed / 2 + 1) as ->.
  { rewrite Htaken in Hfree.
    destruct (decide (k ≤ length placed / 2 + 1)) as [|Hgt]; [lia|].
    specialize (Hbelow (length placed / 2 + 1)). rewrite Htaken in Hbelow. lia. }
  pose proof (half_facts (length placed)) as [? ?].
  pose proof (half_facts (length placed + 1)) as [? ?].
  split; cbn [time_slots].
  - intros i x Hx. apply lookup_app_Some in Hx as [Hx|[Hlen Hx]].
    + rewrite lookup_insert_ne; [by apply Hpos|].
      intros <-. apply Hc. by eapply list_elem_of_lookup_2.
    + apply list_lookup_singleton_Some in Hx as [Hi <-].
      rewrite lookup_insert_eq. f_equal. replace i with (length placed) by lia. done.
  - intros t. rewrite occupancy_insert_fresh, Hocc, length_app by done.
    change (length [c]) with 1. repeat case_decide; lia.
Qed.

Lemma assign_all_packed g0 fuel cs placed st st' :
  (∀ x, neighbors g0 x = ∅) → NoDup (placed ++ cs) →
  loop_inv g0 (list_to_set placed) st → packed placed st →
  assign_all fuel cs st = Some st' →
  packed (placed ++ cs) st'.
Proof.
  intros Hno. revert placed st.
  induction cs as [|c cs IH]; intros placed st Hnd Hinv Hp; simpl.
  - intros [= <-]. by rewrite app_nil_r.
  - destruct (assign_course fuel st c) as [st1|] eqn:Hstep; [|done]. simpl.
    intros Hrest.
    assert (c ∉ placed) as Hc.
    { apply NoDup_app in Hnd as (_ & Hdisj & _). intros Hin.
      apply (Hdisj c Hin). apply elem_of_cons. by left. }
    rewrite cons_middle, app_assoc in Hnd |- *.
    apply (IH _ st1); [done| | |done].
    + replace (list_to_set (placed ++ [c]) : gset string)
        with ({[c]} ∪ list_to_set placed : gset string)
        by (rewrite list_to_set_app_L; set_solver).
      eapply assign_course_inv; [done| |done]. by rewrite elem_of_list_to_set.
    + by eapply assign_course_packed.
Qed.

(** When no course conflicts with another, the courses are packed two per
    slot in the order in which the course set enumerates them: the first two
    in slot 1, the next two in slot 2, and so on. *)
Theorem schedule_exams_no_conflicts (fuel : nat) (enum : list string)
    (s s' : ExamScheduler) (asg : gmap string nat) :
  enum ≡ₚ elements (courses s) →
  (∀ c, neighbors (graph s) c = ∅) →
  schedule_exams fuel enum s = Some (s', asg) →
  ∀ i c, enum !! i = Some c → asg !! c = Some (i / 2 + 1).
Proof.
  intros Hperm Hno Hrun i c Hi.
  destruct (decide (courses s = ∅)) as [Hempty|Hne].
  - rewrite Hempty, elements_empty in Hperm. apply Permutation_nil_r in Hperm.
    subst enum. by rewrite lookup_nil in Hi.
  - destruct (schedule_exams_loop _ _ _ _ _ Hperm Hne Hrun)
      as (st & Hloop & -> & Hnd & Hset & Hinv).
    rewrite sorted_courses_no_conflicts in Hloop, Hnd by done.
    destruct (assign_all_packed (graph s) fuel enum []
                (mkLoop (sort_keys enum (graph s)).1 ∅ ∅) st Hno) as [Hpos _];
      [done|done|apply packed_start|done|].
    by apply Hpos.
Qed.

Lemma schedule_exams_no_conflicts_witness :
  ({["X" := 1; "Y" := 1; "Z" := 2]} : gmap string nat) !! "Z" = Some (2 / 2 + 1).
Proof.
  apply (schedule_exams_no_conflicts 3 ["X"; "Y"; "Z"]
           (add_course "Z" (add_course "Y" (add_course "X" init)))
           (mkScheduler {["X" := ∅; "Y" := ∅; "Z" := ∅]} {["X"; "Y"; "Z"]})
           {["X" := 1; "Y" := 1; "Z" := 2]}).
  - apply permutations_Permutation. vm_compute. repeat constructor.
  - intros c. unfold neighbors. simpl. by rewrite lookup_empty.
  - vm_compute. reflexivity.
  - reflexivity.
Defined.

(** ** Calling [schedule_exams] again *)

Lemma sort_keys_neighbors enum (g g' : gmap string (gset string)) :
  (∀ c, neighbors g' c = neighbors g c) →
  (sort_keys enum g').2 = (sort_keys enum g).2.
Proof.
  intros Hg. rewrite !sort_keys_degrees. apply list_fmap_ext. intros _ c _.
  unfold degree. by rewrite Hg.
Qed.

Lemma assign_course_neighbors fuel st1 st2 c r1 :
  (∀ x, neighbors (ls_graph st2) x = neighbors (ls_graph st1) x) →
  time_slots st2 = time_slots st1 → slot_counts st2 = slot_counts st1 →
  assign_course fuel st1 c = Some r1 →
  ∃ r2, assign_course fuel st2 c = Some r2 ∧
        (∀ x, neighbors (ls_graph r2) x = neighbors (ls_graph r1) x) ∧
        time_slots r2 = time_slots r1 ∧ slot_counts r2 = slot_counts r1.
Proof.
  intros Hg Hts Hcnt. unfold assign_course.
  pose proof (graph_getitem_snd (ls_graph st1) c) as Hn1.
  pose proof (graph_getitem_neighbors (ls_graph st1) c) as Hg1.
  pose proof (graph_getitem_snd (ls_graph st2) c) as Hn2.
  pose proof (graph_getitem_neighbors (ls_graph st2) c) as Hg2.
  destruct (graph_getitem (ls_graph st1) c) as [g1 n1].
  destruct (graph_getitem (ls_graph st2) c) as [g2 n2]. simpl in *.
  rewrite Hn2, Hg, <- Hn1, Hts, Hcnt.
  destruct (find_slot fuel _ _ 1) as [k|]; [|done]. simpl.
  intros [= <-]. eexists. split; [done|]. simpl.
  split; [|done]. intros x. by rewrite Hg2, Hg1.
Qed.

Lemma assign_all_neighbors fuel cs st1 st2 r1 :
  (∀ x, neighbors (ls_graph st2) x = neighbors (ls_graph st1) x) →
  time_slots st2 = time_slots st1 → slot_counts st2 = slot_counts st1 →
  assign_all fuel cs st1 = Some r1 →
  ∃ r2, assign_all fuel cs st2 = Some r2 ∧ time_slots r2 = time_slots r1.
Proof.
  revert st1 st2. induction cs as [|c cs IH]; intros st1 st2 Hg Hts Hcnt; simpl.
  - intros [= <-]. eauto.
  - destruct (assign_course fuel st1 c) as [m1|] eqn:Hstep; [|done]. simpl.
    intros Hrest.
    destruct (assign_course_neighbors _ _ _ _ _ Hg Hts Hcnt Hstep)
      as (m2 & -> & Hg' & Hts' & Hcnt').
    simpl. by apply (IH m1 m2).
Qed.

Lemma touched_twice l (g g1 g2 : gmap string (gset string)) :
  (∀ x, g1 !! x = touched l g x) → (∀ x, g2 !! x = touched l g1 x) → g2 = g1.
Proof.
  intros H1 H2. apply map_eq. intros x. rewrite H2. unfold touched.
  destruct (g1 !! x) eqn:E; [done|]. case_decide as Hin; [|done].
  rewrite H1 in E. unfold touched in E. destruct (g !! x); [done|].
  by rewrite decide_True in E.
Qed.

(** A second call on the state left by the first, with the course set
    enumerated in the same order, returns the same assignment and changes
    nothing any more. *)
Theorem schedule_exams_again (fuel : nat) (enum : list string)
    (s s' : ExamScheduler) (asg : gmap string nat) :
  enum ≡ₚ elements (courses s) →
  schedule_exams fuel enum s = Some (s', asg) →
  schedule_exams fuel enum s' = Some (s', asg).
Proof.
  intros Hperm Hrun.
  destruct (schedule_exams_run _ _ _ _ _ Hperm Hrun) as (Hc & Hg & _).
  destruct (decide (courses s = ∅)) as [Hempty|Hne].
  - unfold schedule_exams in *. rewrite decide_True in Hrun by done.
    injection Hrun as <- <-. by rewrite decide_True.
  - assert (∀ c, neighbors (graph s') c = neighbors (graph s) c) as Hnb.
    { intros c. by apply (touched_neighbors _ _ _ c Hg). }
    destruct (schedule_exams_loop _ _ _ _ _ Hperm Hne Hrun)
      as (st & Hloop & -> & _).
    assert (sorted_courses enum (graph s') = sorted_courses enum (graph s)) as Hsort.
    { unfold sorted_courses. by rewrite (sort_keys_neighbors enum (graph s)). }
    destruct (assign_all_neighbors fuel (sorted_courses enum (graph s))
                (mkLoop (sort_keys enum (graph s)).1 ∅ ∅)
                (mkLoop (sort_keys enum (graph s')).1 ∅ ∅) st)
      as (st2 & Hloop2 & Hts); [|done|done|done|].
    { intros x. simpl.
      rewrite (touched_neighbors enum (graph s') _ x (sort_keys_graph enum (graph s'))).
      rewrite (touched_neighbors enum (graph s) _ x (sort_keys_graph enum (graph s))).
      apply Hnb. }
    assert (schedule_exams fuel enum s'
            = Some (mkScheduler (ls_graph st2) (courses s'), time_slots st)) as Hrun2.
    { rewrite schedule_exams_unfold by (by rewrite Hc).
      rewrite Hsort, Hloop2. simpl. by rewrite Hts. }
    rewrite Hrun2. f_equal. f_equal.
    rewrite <- Hc in Hperm.
    destruct (schedule_exams_run _ _ _ _ _ Hperm Hrun2) as (_ & Hg2 & _).
    simpl in Hg2. rewrite Hc in Hg2.
    rewrite (touched_twice _ _ _ _ Hg Hg2). by destruct s'.
Qed.

Lemma schedule_exams_again_witness :
  schedule_exams 1 ["X"] lone_course_scheduled
  = Some (lone_course_scheduled, {["X" := 1]}).
Proof.
  apply (schedule_exams_again 1 ["X"] lone_course).
  - reflexivity.
  - vm_compute. reflexivity.
Defined.

(** ** The course list box *)

Lemma sorted_names_perm l : sorted_names l ≡ₚ l.
Proof. apply merge_sort_Permutation. Qed.

Lemma sorted_names_sorted l : StronglySorted String.le (sorted_names l).
Proof. apply StronglySorted_merge_sort; apply _. Qed.

Lemma sorted_names_ext l l' : l ≡ₚ l' → sorted_names l = sorted_names l'.
Proof.
  intros Hp. apply (StronglySorted_unique String.le);
    [apply sorted_names_sorted..|]. by rewrite !sorted_names_perm.
Qed.

(** [update_courses_list] shows the registered courses, each once, in
    ascending order, whatever the order in which the course set is
    enumerated; nothing else of the window changes. *)
Theorem update_courses_list_spec (ui : ExamPlannerUI) (enum : list string) :
  enum ≡ₚ elements (courses (scheduler ui)) →
  courses_listbox (update_courses_list ui) = sorted_names enum ∧
  StronglySorted String.le (courses_listbox (update_courses_list ui)) ∧
  NoDup (courses_listbox (update_courses_list ui)) ∧
  (∀ c, c ∈ courses_listbox (update_courses_list ui) ↔ c ∈ courses (scheduler ui)) ∧
  scheduler (update_courses_list ui) = scheduler ui ∧
  schedule_result (update_courses_list ui) = schedule_result ui.
Proof.
  intros Hperm. simpl. split; [by apply sorted_names_ext|].
  split; [apply sorted_names_sorted|]. split.
  - rewrite sorted_names_perm. apply NoDup_elements.
  - split; [|done]. intros c. by rewrite sorted_names_perm, elem_of_elements.
Qed.

Lemma update_courses_list_spec_witness :
  courses_listbox (update_courses_list (mkUI square ∅ [] EmptyString))
    = sorted_names ["D"; "C"; "B"; "A"] ∧
  StronglySorted String.le
    (courses_listbox (update_courses_list (mkUI square ∅ [] EmptyString))) ∧
  NoDup (courses_listbox (update_courses_list (mkUI square ∅ [] EmptyString))) ∧
  (∀ c, c ∈ courses_listbox (update_courses_list (mkUI square ∅ [] EmptyString))
        ↔ c ∈ courses (scheduler (mkUI square ∅ [] EmptyString))) ∧
  scheduler (update_courses_list (mkUI square ∅ [] EmptyString))
    = scheduler (mkUI square ∅ [] EmptyString) ∧
  schedule_result (update_courses_list (mkUI square ∅ [] EmptyString))
    = schedule_result (mkUI square ∅ [] EmptyString).
Proof.
  apply (update_courses_list_spec (mkUI square ∅ [] EmptyString) ["D"; "C"; "B"; "A"]).
  apply permutations_Permutation. vm_compute. repeat constructor.
Defined.

(** ** The example data *)

Lemma load_example_data_reachable s :
  reachable_distinct s → reachable_distinct (load_example_data s).
Proof.
  intros Hs. unfold load_example_data, example_conflicts, example_courses.
  cbn [foldl fst snd].
  repeat (apply reachd_add_conflict; [done|]).
  repeat apply reachd_add_course. done.
Qed.

Lemma example_courses_NoDup : NoDup example_courses.
Proof. apply (bool_decide_unpack _). vm_compute. exact I. Qed.

Lemma load_example_data_courses :
  courses (load_example_data init) = list_to_set example_courses.
Proof. apply (bool_decide_unpack _). vm_compute. exact I. Qed.

Lemma load_example_data_named : EmptyString ∉ courses (load_example_data init).
Proof. apply (bool_decide_unpack _). vm_compute. exact I. Qed.

Lemma load_example_data_size : size (courses (load_example_data init)) = 8.
Proof.
  rewrite load_example_data_courses, size_list_to_set by apply example_courses_NoDup.
  reflexivity.
Qed.

(** ** The handlers *)

Lemma display_initial_schedule_Some fuel enum ui ui' :
  display_initial_schedule fuel enum ui = Some ui' →
  ∃ s' asg, schedule_exams fuel enum (scheduler ui) = Some (s', asg) ∧
            ui' = mkUI s' asg (courses_listbox ui) (schedule_text asg).
Proof.
  unfold display_initial_schedule.
  destruct (schedule_exams fuel enum (scheduler ui)) as [[s' asg]|]; [|done].
  intros [= <-]. by exists s', asg.
Qed.

Lemma ui_new_Some fuel enum ui :
  ui_new fuel enum = Some ui →
  ∃ s' asg, schedule_exams fuel enum (load_example_data init) = Some (s', asg) ∧
            ui = mkUI s' asg (sorted_names (elements (courses (load_example_data init))))
                      (schedule_text asg).
Proof.
  intros (s' & asg & Hrun & ->)%display_initial_schedule_Some.
  exists s', asg. split; [exact Hrun|reflexivity].
Qed.

Lemma ui_reset_Some fuel enum ui d ui' :
  ui_reset true fuel enum ui = Some (d, ui') →
  ∃ s' asg, schedule_exams fuel enum (load_example_data init) = Some (s', asg) ∧
            d = Some (showinfo "Reset" "All data cleared. Example data reloaded.") ∧
            ui' = mkUI s' asg [] (schedule_text asg).
Proof.
  unfold ui_reset.
  destruct (display_initial_schedule _ _ _) as [ui3|] eqn:Hshow; [|done].
  intros [= <- <-].
  apply display_initial_schedule_Some in Hshow as (s' & asg & Hrun & ->).
  exists s', asg. split; [exact Hrun|]. split; reflexivity.
Qed.

Lemma ui_add_conflict_cases c1 c2 s :
  ((ui_add_conflict c1 c2 s).2 = s ∧
   ∃ message, (ui_add_conflict c1 c2 s).1 = showwarning "Input Error" message) ∨
  (c1 ≠ EmptyString ∧ c2 ≠ EmptyString ∧ c1 ≠ c2 ∧
   c1 ∈ courses s ∧ c2 ∈ courses s ∧
   (ui_add_conflict c1 c2 s).2 = add_conflict c1 c2 s ∧
   ∃ message, (ui_add_conflict c1 c2 s).1 = showinfo "Success" message).
Proof.
  unfold ui_add_conflict.
  destruct (decide (c1 = EmptyString ∨ c2 = EmptyString)) as [|Hne]; [left; eauto|].
  destruct (decide (c1 = c2)) as [|Hdiff]; [left; eauto|].
  destruct (decide (c1 ∉ courses s ∨ c2 ∉ courses s)) as [|Hin]; [left; eauto|].
  right. simpl. repeat split; eauto.
  - destruct (decide (c1 ∈ courses s)); tauto.
  - destruct (decide (c2 ∈ courses s)); tauto.
Qed.

Lemma ui_add_conflict_courses c1 c2 s :
  courses (ui_add_conflict c1 c2 s).2 = courses s.
Proof.
  destruct (ui_add_conflict_cases c1 c2 s)
    as [[-> _]|(_ & _ & _ & Hin1 & Hin2 & -> & _)]; [done|].
  unfold add_conflict. simpl. set_solver.
Qed.

(** The conflict handler of the window acts only on two different,
    registered, non-empty course names; it then adds the one edge in both
    directions, and it never changes the course set. *)
Theorem ui_add_conflict_spec (c1 c2 : string) (s : ExamScheduler) :
  courses (ui_add_conflict c1 c2 s).2 = courses s ∧
  ((ui_add_conflict c1 c2 s).2 ≠ s →
     c1 ≠ EmptyString ∧ c2 ≠ EmptyString ∧ c1 ≠ c2 ∧ c1 ∈ courses s ∧ c2 ∈ courses s) ∧
  (∀ x y, conflicts (ui_add_conflict c1 c2 s).2 x y →
          conflicts s x y ∨ (x ≠ y ∧ ((x = c1 ∧ y = c2) ∨ (x = c2 ∧ y = c1)))).
Proof.
  destruct (ui_add_conflict_cases c1 c2 s)
    as [[-> _]|(H1 & H2 & Hd & Hin1 & Hin2 & -> & _)].
  - split; [done|]. split; [done|]. auto.
  - split; [unfold add_conflict; simpl; set_solver|]. split; [done|].
    intros x y. rewrite conflicts_add_conflict.
    intros [?|[[-> ->]|[-> ->]]]; [by left|right..]; split; auto.
Qed.

Lemma ui_invariant_schedule fuel enum s s' asg listbox text :
  enum ≡ₚ elements (courses s) →
  reachable_distinct s → EmptyString ∉ courses s →
  (listbox = [] ∨ listbox = sorted_names (elements (courses s))) →
  schedule_exams fuel enum s = Some (s', asg) →
  ui_invariant (mkUI s' asg listbox text).
Proof.
  intros Hperm Hs Hnamed Hlist Hrun.
  destruct (schedule_exams_run _ _ _ _ _ Hperm Hrun) as (Hc & _).
  unfold ui_invariant. cbn [scheduler courses_listbox]. rewrite Hc.
  split; [by eapply reachd_schedule|]. done.
Qed.

Lemma ui_reachable_invariant ui : ui_reachable ui → ui_invariant ui.
Proof.
  induction 1 as [fuel enum ui Hperm Hnew
                 |name ui _ (Hs & Hnamed & Hlist)
                 |selection ui _ (Hs & Hnamed & Hlist)
                 |c1 c2 ui _ (Hs & Hnamed & Hlist)
                 |fuel enum ui d ui' _ (Hs & Hnamed & Hlist) Hperm Hgen
                 |confirmed fuel enum ui d ui' _ (Hs & Hnamed & Hlist) Hperm Hreset].
  - apply ui_new_Some in Hnew as (s' & asg & Hrun & ->).
    apply (ui_invariant_schedule fuel enum (load_example_data init)); auto.
    + apply load_example_data_reachable. constructor.
    + apply load_example_data_named.
  - unfold ui_add_course. repeat case_decide; try done.
    unfold ui_invariant. simpl. split; [by constructor|]. split; [set_solver|auto].
  - unfold ui_remove_selected_course. destruct selection as [|i ?]; [done|].
    unfold ui_invariant. simpl. split; [by constructor|]. split; [|auto].
    intros Hin. apply Hnamed.
    destruct (decide (default EmptyString (courses_listbox ui !! i) ∈ courses (scheduler ui))).
    + rewrite remove_course_present in Hin by done. simpl in Hin. set_solver.
    + by rewrite remove_course_absent in Hin.
  - unfold ui_add_conflict_step, ui_invariant. simpl.
    rewrite (ui_add_conflict_courses c1 c2 (scheduler ui)).
    split; [|done].
    destruct (ui_add_conflict_cases c1 c2 (scheduler ui))
      as [[-> _]|(_ & _ & Hd & _ & _ & -> & _)]; [done|by constructor].
  - unfold ui_generate_schedule in Hgen. case_decide.
    + injection Hgen as <- <-. done.
    + destruct (schedule_exams fuel enum (scheduler ui)) as [[s' asg]|] eqn:Hrun;
        [|done].
      injection Hgen as <- <-. by eapply ui_invariant_schedule.
  - destruct confirmed.
    + apply ui_reset_Some in Hreset as (s' & asg & Hrun & _ & ->).
      apply (ui_invariant_schedule fuel enum (load_example_data init)); auto.
      * apply load_example_data_reachable. constructor.
      * apply load_example_data_named.
    + injection Hreset as <- <-. done.
Qed.

(** In every state of the window the conflict relation is symmetric and
    without self-conflict, no course has an empty name, and every line of the
    list box is a registered course. *)
Theorem ui_state_invariant (ui : ExamPlannerUI) :
  ui_reachable ui →
  graph_symmetric (scheduler ui) ∧
  graph_irreflexive (scheduler ui) ∧
  graph_closed (scheduler ui) ∧
  (EmptyString ∉ courses (scheduler ui)) ∧
  (∀ name, name ∈ courses_listbox ui → name ∈ courses (scheduler ui)).
Proof.
  intros (Hs & Hnamed & Hlist)%ui_reachable_invariant.
  split; [by apply reachable_symmetric, reachable_distinct_reachable|].
  split; [by apply reachable_distinct_irreflexive|].
  split; [by apply reachable_closed, reachable_distinct_reachable|].
  split; [done|]. intros name.
  destruct Hlist as [->| ->].
  - intros ?%elem_of_nil. done.
  - by rewrite sorted_names_perm, elem_of_elements.
Qed.

Lemma first_window_reachable ui : first_window = Some ui → ui_reachable ui.
Proof.
  intros H. by apply (ui_reach_new 8 (elements (courses (load_example_data init)))).
Qed.

Lemma first_window_exists : is_Some first_window.
Proof.
  unfold first_window, ui_new, display_initial_schedule.
  destruct (schedule_exams_enough 8 (elements (courses (load_example_data init)))
              (load_example_data init)) as [r Hr].
  - reflexivity.
  - by rewrite load_example_data_size.
  - cbn [scheduler update_courses_list]. rewrite Hr. simpl. eauto.
Qed.

Lemma first_window_courses ui :
  first_window = Some ui → courses (scheduler ui) = list_to_set example_courses.
Proof.
  intros (s' & asg & Hrun & ->)%ui_new_Some. cbn [scheduler].
  destruct (schedule_exams_run _ _ _ _ _ (reflexivity _) Hrun) as (-> & _).
  apply load_example_data_courses.
Qed.

Lemma ui_state_invariant_witness :
  ∃ ui, first_window = Some ui ∧
    graph_symmetric (scheduler ui) ∧
    graph_irreflexive (scheduler ui) ∧
    graph_closed (scheduler ui) ∧
    (EmptyString ∉ courses (scheduler ui)) ∧
    (∀ name, name ∈ courses_listbox ui → name ∈ courses (scheduler ui)).
Proof.
  destruct first_window_exists as [ui Hui]. exists ui. split; [done|].
  apply (ui_state_invariant ui). by apply first_window_reachable.
Defined.

Lemma schedule_exams_apart fuel enum s s' asg a b :
  graph_symmetric s → graph_closed s →
  enum ≡ₚ elements (courses s) →
  schedule_exams fuel enum s = Some (s', asg) →
  a ≠ b → conflicts s a b →
  ∃ ka kb, asg !! a = Some ka ∧ asg !! b = Some kb ∧ ka ≠ kb.
Proof.
  intros Hsym [_ Hedges] Hperm Hrun Hab Hconf.
  destruct (schedule_exams_run _ _ _ _ _ Hperm Hrun) as (_ & _ & st & Hinv & ->).
  destruct (Hedges a b Hconf) as [Ha Hb].
  rewrite <- (inv_dom _ _ _ Hinv) in Ha, Hb.
  apply elem_of_dom in Ha as [ka Hka]. apply elem_of_dom in Hb as [kb Hkb].
  exists ka, kb. split; [done|]. split; [done|].
  apply (inv_conflict _ _ _ Hinv Hsym a b); done.
Qed.

(** In a state of the window with at least one course, "Generate Schedule"
    opens no message box and shows a schedule that gives a slot to every
    registered course, at most two courses per slot, and different slots to
    any two courses in conflict. *)
Theorem ui_generate_schedule_spec (fuel : nat) (enum : list string)
    (ui : ExamPlannerUI) :
  ui_reachable ui →
  enum ≡ₚ elements (courses (scheduler ui)) →
  courses (scheduler ui) ≠ ∅ →
  size (courses (scheduler ui)) ≤ fuel →
  ∃ ui', ui_generate_schedule fuel enum ui = Some (None, ui') ∧
    courses (scheduler ui') = courses (scheduler ui) ∧
    dom (schedule_result ui') = courses (scheduler ui) ∧
    conflict_free (scheduler ui') (schedule_result ui') ∧
    (∀ slot, occupancy (schedule_result ui') slot ≤ 2) ∧
    result_text ui' = schedule_text (schedule_result ui') ∧
    courses_listbox ui' = courses_listbox ui.
Proof.
  intros (Hs & _)%ui_reachable_invariant Hperm Hne Hfuel.
  destruct (schedule_exams_enough fuel enum _ Hperm Hfuel) as [[s' asg] Hrun].
  unfold ui_generate_schedule. rewrite decide_False by done. rewrite Hrun.
  eexists. split; [reflexivity|].
  cbn [scheduler schedule_result result_text courses_listbox display_schedule
       mbind option_bind fst snd].
  destruct (schedule_exams_run _ _ _ _ _ Hperm Hrun) as (Hc & _ & st & Hinv & Hasg).
  split; [done|]. split; [subst asg; apply (inv_dom _ _ _ Hinv)|].
  split; [|split; [subst asg; apply (inv_capacity _ _ _ Hinv)|done]].
  pose proof (reachable_distinct_reachable _ Hs) as Hr.
  intros a b Hconf.
  rewrite (conflicts_schedule_exams _ _ _ _ _ a b Hperm Hrun) in Hconf.
  assert (a ≠ b) as Hab.
  { intros ->. by apply (reachable_distinct_irreflexive _ Hs b). }
  destruct (schedule_exams_apart fuel enum _ s' asg a b
              (reachable_symmetric _ Hr) (reachable_closed _ Hr) Hperm Hrun Hab Hconf)
    as (ka & kb & -> & -> & Hk).
  congruence.
Qed.

Lemma ui_generate_schedule_spec_witness :
  ∃ ui, first_window = Some ui ∧
  ∃ ui', ui_generate_schedule 8 (elements (courses (scheduler ui))) ui = Some (None, ui') ∧
    courses (scheduler ui') = courses (scheduler ui) ∧
    dom (schedule_result ui') = courses (scheduler ui) ∧
    conflict_free (scheduler ui') (schedule_result ui') ∧
    (∀ slot, occupancy (schedule_result ui') slot ≤ 2) ∧
    result_text ui' = schedule_text (schedule_result ui') ∧
    courses_listbox ui' = courses_listbox ui.
Proof.
  destruct first_window_exists as [ui Hui]. exists ui. split; [done|].
  pose proof (first_window_courses ui Hui) as Hc.
  apply (ui_generate_schedule_spec 8 (elements (courses (scheduler ui))) ui).
  - by apply first_window_reachable.
  - reflexivity.
  - rewrite Hc. apply (bool_decide_unpack _). vm_compute. exact I.
  - rewrite Hc, size_list_to_set by apply example_courses_NoDup. simpl. lia.
Defined.

(** A confirmed reset brings back the scheduler, the schedule and the text
    of a new window, but leaves the course list box empty, where a new window
    lists the eight example courses: the list is refreshed before the example
    data is loaded. *)
Theorem ui_reset_listbox (fuel : nat) (enum : list string)
    (ui new ui' : ExamPlannerUI) (d : option dialog) :
  ui_new fuel enum = Some new →
  ui_reset true fuel enum ui = Some (d, ui') →
  scheduler ui' = scheduler new ∧
  schedule_result ui' = schedule_result new ∧
  result_text ui' = result_text new ∧
  courses_listbox new = sorted_names example_courses ∧
  courses_listbox ui' = [] ∧
  courses (scheduler ui') = list_to_set example_courses.
Proof.
  intros (s1 & asg1 & Hrun1 & ->)%ui_new_Some (s2 & asg2 & Hrun2 & _ & ->)%ui_reset_Some.
  rewrite Hrun1 in Hrun2. injection Hrun2 as <- <-.
  cbn [scheduler schedule_result result_text courses_listbox].
  split; [done|]. split; [done|]. split; [done|]. split; [|split; [done|]].
  - apply sorted_names_ext. rewrite load_example_data_courses.
    apply elements_list_to_set, example_courses_NoDup.
  - unfold schedule_exams in Hrun1. case_decide.
    + injection Hrun1 as <- _. apply load_example_data_courses.
    + destruct (sort_keys enum _) as [g1 ks].
      destruct (assign_all _ _ _) as [st|]; [|done]. injection Hrun1 as <- _.
      apply load_example_data_courses.
Qed.

Lemma ui_reset_listbox_witness :
  ∃ new ui' d,
    first_window = Some new ∧
    ui_reset true 8 (elements (courses (load_example_data init))) new = Some (d, ui') ∧
    scheduler ui' = scheduler new ∧
    schedule_result ui' = schedule_result new ∧
    result_text ui' = result_text new ∧
    courses_listbox new = sorted_names example_courses ∧
    courses_listbox ui' = [] ∧
    courses (scheduler ui') = list_to_set example_courses.
Proof.
  destruct first_window_exists as [new Hnew].
  destruct (ui_new_Some _ _ _ Hnew) as (s' & asg & Hrun & Hui).
  assert (ui_reset true 8 (elements (courses (load_example_data init))) new
          = Some (Some (showinfo "Reset" "All data cleared. Example data reloaded."),
                  mkUI s' asg [] (schedule_text asg))) as Hreset.
  { unfold ui_reset, display_initial_schedule.
    cbn [scheduler update_courses_list courses_listbox schedule_result result_text].
    rewrite Hrun. reflexivity. }
  eexists new, _, _. split; [done|]. split; [exact Hreset|].
  exact (ui_reset_listbox 8 (elements (courses (load_example_data init))) new new
           _ _ Hnew Hreset).
Defined.

(** Adding a course name twice through the window: the second attempt
    answers that the course already exists and changes nothing. *)
Theorem ui_add_course_twice (name : string) (ui : ExamPlannerUI) :
  name ≠ EmptyString →
  name ∈ courses (scheduler (ui_add_course name ui).2) ∧
  ui_add_course name (ui_add_course name ui).2
    = (showinfo "Info" "Course already exists.", (ui_add_course name ui).2).
Proof.
  intros Hname.
  assert (name ∈ courses (scheduler (ui_add_course name ui).2)) as Hin.
  { unfold ui_add_course. rewrite decide_False by done.
    case_decide; simpl; [done|set_solver]. }
  split; [done|]. unfold ui_add_course at 1.
  rewrite decide_False by done. by rewrite decide_True.
Qed.

Lemma ui_add_course_twice_witness :
  "E" ∈ courses (scheduler (ui_add_course "E" (mkUI square ∅ [] EmptyString)).2) ∧
  ui_add_course "E" (ui_add_course "E" (mkUI square ∅ [] EmptyString)).2
    = (showinfo "Info" "Course already exists.",
       (ui_add_course "E" (mkUI square ∅ [] EmptyString)).2).
Proof. apply (ui_add_course_twice "E" (mkUI square ∅ [] EmptyString)). done. Defined.

(** Removing the selected line of the list box: the line names a
    registered course; afterwards that course is gone from the scheduler, from
    every conflict set and from the list box, which shows the remaining
    courses. *)
Theorem ui_remove_selected_spec (i : nat) (rest : list nat) (name : string)
    (ui : ExamPlannerUI) :
  ui_reachable ui →
  courses_listbox ui !! i = Some name →
  name ∈ courses (scheduler ui) ∧
  courses (scheduler (ui_remove_selected_course (i :: rest) ui).2)
    = courses (scheduler ui) ∖ {[name]} ∧
  (∀ y, ¬ conflicts (scheduler (ui_remove_selected_course (i :: rest) ui).2) y name ∧
        ¬ conflicts (scheduler (ui_remove_selected_course (i :: rest) ui).2) name y) ∧
  (∀ c, c ∈ courses_listbox (ui_remove_selected_course (i :: rest) ui).2
        ↔ c ∈ courses (scheduler ui) ∧ c ≠ name).
Proof.
  intros Hui Hi.
  destruct (ui_reachable_invariant ui Hui) as (Hs & _ & Hlist).
  assert (name ∈ courses (scheduler ui)) as Hin.
  { destruct Hlist as [Hl|Hl]; rewrite Hl in Hi.
    - by rewrite lookup_nil in Hi.
    - apply list_elem_of_lookup_2 in Hi.
      by rewrite sorted_names_perm, elem_of_elements in Hi. }
  split; [done|]. unfold ui_remove_selected_course. rewrite Hi.
  cbn [default snd scheduler courses_listbox update_courses_list].
  split; [by rewrite remove_course_present|]. split.
  - intros y. rewrite !conflicts_remove_course by done. tauto.
  - intros c. rewrite sorted_names_perm, elem_of_elements.
    rewrite remove_course_present by done. simpl. set_solver.
Qed.

Lemma ui_remove_selected_spec_witness :
  ∃ ui, first_window = Some ui ∧
    "Basic Electrical Engineering(CSE/IT)" ∈ courses (scheduler ui) ∧
    courses (scheduler (ui_remove_selected_course [0] ui).2)
      = courses (scheduler ui) ∖ {["Basic Electrical Engineering(CSE/IT)"]} ∧
    (∀ y, ¬ conflicts (scheduler (ui_remove_selected_course [0] ui).2) y
              "Basic Electrical Engineering(CSE/IT)" ∧
          ¬ conflicts (scheduler (ui_remove_selected_course [0] ui).2)
              "Basic Electrical Engineering(CSE/IT)" y) ∧
    (∀ c, c ∈ courses_listbox (ui_remove_selected_course [0] ui).2
          ↔ c ∈ courses (scheduler ui) ∧ c ≠ "Basic Electrical Engineering(CSE/IT)").
Proof.
  destruct first_window_exists as [ui Hui]. exists ui. split; [done|].
  apply (ui_remove_selected_spec 0 [] "Basic Electrical Engineering(CSE/IT)" ui).
  - by apply first_window_reachable.
  - destruct (ui_new_Some _ _ _ Hui) as (s' & asg & _ & ->).
    cbn [courses_listbox]. vm_compute. reflexivity.
Defined.

(** ** The displayed schedule *)











